(** * A shallow embedding of the MIDI playback transport

    The development follows the Python sources

    - [midi/midi_event_utils.py]   (dispatch helpers),
    - [midi/fluidsynth_player.py]  (the FluidSynth wrapper),
    - [midi/playback_controller.py] (the transport state machine),

    and, for the background dispatch loop whose source file
    ([midi/note_scheduler.py]) is not available, the prose description of
    the Note Scheduler.

    Modelling decisions.

    - Python floats are modelled as exact rationals ([Q]); equalities
      between computed positions are stated up to [Qeq].  Rounding is the
      "tolerance" the description speaks of.
    - [time.time()] reads a clock kept in the [World]; an operation of the
      controller is instantaneous, the clock only advances between
      operations ([advance]).
    - Exceptions are values of [Exn]; an operation is a state transformer
      that returns either an exception or a result, and the state it leaves
      behind is kept in both cases, as a Python object keeps the attribute
      writes made before an exception escapes.
    - Calls into the synthesizer library are recorded in [trace]; whether
      such a call raises is decided by the environment ([backend_raises]).
    - [print] statements are not modelled.
    - The background thread is modelled by [NoteScheduler.tick], one
      iteration of its loop, interleaved with the controller's operations
      at the granularity of whole operations. *)

From Stdlib Require Import ZArith QArith Qminmax Lqa Lia List String Bool.
From stdpp Require Import base gmap sets list.
Import ListNotations.

Local Open Scope Q_scope.

(** ** Exceptions and the state-and-exception monad *)

Inductive Exn : Type :=
| AttributeError
| TypeError
| ValueError
| OverflowError
| ZeroDivisionError
| BackendError.

Definition M (S A : Type) : Type := S -> (Exn + A) * S.

Definition ret {S A : Type} (a : A) : M S A := fun s => (inr a, s).

Definition raise {S A : Type} (e : Exn) : M S A := fun s => (inl e, s).

Definition bind {S A B : Type} (m : M S A) (k : A -> M S B) : M S B :=
  fun s =>
    match m s with
    | (inr a, s') => k a s'
    | (inl e, s') => (inl e, s')
    end.

(** [try: body / except Exception as e: handler e]. *)
Definition try_except {S A : Type} (body : M S A) (handler : Exn -> M S A)
  : M S A :=
  fun s =>
    match body s with
    | (inl e, s') => handler e s'
    | (inr a, s') => (inr a, s')
    end.

Definition gets {S A : Type} (f : S -> A) : M S A := fun s => (inr (f s), s).

Definition modify {S : Type} (f : S -> S) : M S unit := fun s => (inr tt, f s).

Notation "x <~ m ;; k" := (bind m (fun x => k))
  (at level 100, m at next level, right associativity).
Notation "m >>> k" := (bind m (fun _ => k))
  (at level 100, right associativity).

(** [for x in xs: body x]; an exception leaves the loop. *)
Fixpoint for_each {S A : Type} (xs : list A) (body : A -> M S unit)
  : M S unit :=
  match xs with
  | [] => ret tt
  | x :: xs' => body x >>> for_each xs' body
  end.

(** [when b m] is [if b: m]. *)
Definition when {S : Type} (b : bool) (m : M S unit) : M S unit :=
  if b then m else ret tt.

(** Run a computation on a component of the state. *)
Definition zoom {S T A : Type} (proj : S -> T) (inj : T -> S -> S)
  (m : M T A) : M S A :=
  fun s => let '(r, t') := m (proj s) in (r, inj t' s).

(** Did the computation return normally? *)
Definition returns {A : Type} (r : Exn + A) : Prop :=
  match r with inr _ => True | inl _ => False end.

(** ** The world outside the program *)

(** Calls into the native synthesizer ([fluidsynth.Synth]) and into a
    [pygame.midi.Output] device. *)
Inductive Call : Type :=
| fs_noteon (chan key vel : Z)
| fs_noteoff (chan key : Z)
| fs_cc (chan ctrl val : Z)
| fs_program_select (chan sfid bank preset : Z)
| pg_note_on (note velocity channel : Z)
| pg_note_off (note velocity channel : Z)
| pg_write_short (status data1 data2 : Z).

(** What the program cannot decide: whether a backend call raises (given
    the calls made so far), and how [int()] reads a string. *)
Record Env : Type := {
  backend_raises : list Call -> Call -> bool;
  int_of_str : string -> option Z
}.

Record World : Type := {
  env : Env;
  clock : Q;
  trace : list Call
}.

Definition record_call (c : Call) (w : World) : World :=
  {| env := env w; clock := clock w; trace := trace w ++ [c] |}.

(** One call into the backend: it is recorded, and raises when the
    environment says so. *)
Definition extern (c : Call) : M World unit :=
  fun w =>
    if backend_raises (env w) (trace w) c
    then (inl BackendError, record_call c w)
    else (inr tt, record_call c w).

(** [time.time()] *)
Definition time_time : M World Q := gets clock.

(** The environment lets [d] seconds pass. *)
Definition advance (d : Q) (w : World) : World :=
  {| env := env w; clock := clock w + d; trace := trace w |}.

(** ** Python values passed to the dispatch helpers *)

Inductive PyVal : Type :=
| VNone
| VBool (b : bool)
| VInt (z : Z)
| VFloat (q : Q)
| VNaN
| VInf
| VStr (s : string)
| VObject.

(** [int(v)]: truncation toward zero for a float, [ValueError] for NaN and
    for a string that is no integer literal, [OverflowError] for an
    infinity, [TypeError] for [None] and for an object without [__int__]. *)
Definition py_int (v : PyVal) : M World Z :=
  match v with
  | VNone => raise TypeError
  | VBool b => ret (if b then 1 else 0)%Z
  | VInt z => ret z
  | VFloat q => ret (Z.quot (Qnum q) (Z.pos (Qden q)))
  | VNaN => raise ValueError
  | VInf => raise OverflowError
  | VStr s =>
      fun w =>
        match int_of_str (env w) s with
        | Some z => (inr z, w)
        | None => (inl ValueError, w)
        end
  | VObject => raise TypeError
  end.

(** [range(16)] *)
Definition range16 : list Z := map Z.of_nat (seq 0 16).

(** ** midi/fluidsynth_player.py *)

Module FluidSynthPlayer.

(** [fs] tells whether the attribute [fs] holds a synthesizer (it is
    [None] otherwise); [sfid] is the sound font id, [-1] when none is
    loaded. *)
Record t : Type := { fs : bool; sfid : Z }.

Definition eqb (p q : t) : bool :=
  Bool.eqb (fs p) (fs q) && Z.eqb (sfid p) (sfid q).

Definition noteon (self : t) (channel key velocity : Z) : M World unit :=
  if negb (fs self) then ret tt
  else try_except (extern (fs_noteon channel key velocity))
                  (fun _ => ret tt).

Definition noteoff (self : t) (channel key : Z) : M World unit :=
  if negb (fs self) then ret tt
  else try_except (extern (fs_noteoff channel key)) (fun _ => ret tt).

Definition program_change (self : t) (channel program : Z)
  : M World unit :=
  if negb (fs self) || Z.eqb (sfid self) (-1) then ret tt
  else try_except (extern (fs_program_select channel (sfid self) 0 program))
                  (fun _ => ret tt).

End FluidSynthPlayer.

(** ** midi/midi_event_utils.py *)

(** The first argument of the helpers, by what the helpers distinguish:
    [None], a [FluidSynthPlayer], a [pygame.midi.Output], or any other
    value with its truth value. *)
Inductive Target : Type :=
| TNone
| TFluid (p : FluidSynthPlayer.t)
| TPygame
| TOther (truth : bool).

(** [bool(target)]; the two classes define neither [__bool__] nor
    [__len__], so their instances are true. *)
Definition truthy (d : Target) : bool :=
  match d with
  | TNone => false
  | TFluid _ => true
  | TPygame => true
  | TOther b => b
  end.

Module midi_event_utils.

Definition send_note_on (device_or_player : Target)
  (pitch velocity channel : PyVal) : M World unit :=
  if negb (truthy device_or_player) then ret tt
  else
    try_except
      (actual_velocity <~ py_int velocity ;;
       actual_pitch <~ py_int pitch ;;
       actual_channel <~ py_int channel ;;
       match device_or_player with
       | TFluid p =>
           if FluidSynthPlayer.fs p
           then FluidSynthPlayer.noteon p actual_channel actual_pitch
                  actual_velocity
           else ret tt
       | TPygame =>
           extern (pg_note_on actual_pitch actual_velocity actual_channel)
       | _ => ret tt
       end)
      (fun _ => ret tt).

Definition send_note_off (device_or_player : Target)
  (pitch velocity channel : PyVal) : M World unit :=
  if negb (truthy device_or_player) then ret tt
  else
    try_except
      (actual_pitch <~ py_int pitch ;;
       actual_channel <~ py_int channel ;;
       match device_or_player with
       | TFluid p =>
           if FluidSynthPlayer.fs p
           then FluidSynthPlayer.noteoff p actual_channel actual_pitch
           else ret tt
       | TPygame => extern (pg_note_off actual_pitch 0 actual_channel)
       | _ => ret tt
       end)
      (fun _ => ret tt).

Definition send_all_notes_off (device_or_player : Target) : M World unit :=
  if negb (truthy device_or_player) then ret tt
  else
    try_except
      (match device_or_player with
       | TFluid p =>
           if FluidSynthPlayer.fs p
           then for_each range16 (fun channel => extern (fs_cc channel 123 0))
           else ret tt
       | TPygame =>
           for_each range16
             (fun channel => extern (pg_write_short (176 + channel) 123 0))
       | _ => ret tt
       end)
      (fun _ => ret tt).


End midi_event_utils.

(** ** Notes, the scheduler object and the controller object *)

(** A note as the description gives it: pitch, velocity, the half-open
    window [[start_time, end_time)] in seconds, and the channel. *)
Record Note : Type := {
  pitch : Z;
  velocity : Z;
  start_time : Q;
  end_time : Q;
  channel : Z
}.

(** What a dispatch loop sends for the note at an index of the list. *)
Inductive Dispatch : Type :=
| NoteOn (chan key vel : Z)
| NoteOff (chan key : Z).

Definition Event : Type := (nat * Dispatch)%type.

(** Modelled from the spec: the attributes of a [NoteScheduler]
    ([midi/note_scheduler.py] is missing).  [sched_notes] is the list the
    loop iterates, [midi_output_target] the constructor argument of that
    name, [started] and [active] the Scheduler Cursor (the indices of the
    notes already started, and of those currently sounding), and
    [thread_alive] tells whether the background loop exists. *)
Record SchedulerState : Type := {
  sched_notes : list Note;
  midi_output_target : Target;
  started : gset nat;
  active : gset nat;
  thread_alive : bool
}.

(** The attributes [PlaybackController.__init__] assigns.  [stop_flag] is
    the [threading.Event], [_is_playing_for_scheduler] the one-element list
    shared with the scheduler.  [device_manager] is assigned by no
    statement of the class (the import of [DeviceManager] is commented out
    as removed): [None] stands for "the object has no such attribute". *)
Record Controller : Type := {
  fluidsynth_player : option FluidSynthPlayer.t;
  notes : list Note;
  _is_playing_internal : bool;
  paused : bool;
  current_playback_time_sec : Q;
  playback_start_real_time : Q;
  pause_start_time_sec : Q;
  tempo_bpm : Q;
  tempo_scale_factor : Q;
  stop_flag : bool;
  _is_playing_for_scheduler : bool;
  note_scheduler : option SchedulerState;
  device_manager : option unit
}.

(** The controller object together with the world it runs in. *)
Record System : Type := {
  world : World;
  ctrl : Controller
}.

(** *** Attribute writes *)

Definition set_notes_attr (v : list Note) (c : Controller) : Controller :=
  {| fluidsynth_player := fluidsynth_player c; notes := v;
     _is_playing_internal := _is_playing_internal c; paused := paused c;
     current_playback_time_sec := current_playback_time_sec c;
     playback_start_real_time := playback_start_real_time c;
     pause_start_time_sec := pause_start_time_sec c;
     tempo_bpm := tempo_bpm c; tempo_scale_factor := tempo_scale_factor c;
     stop_flag := stop_flag c;
     _is_playing_for_scheduler := _is_playing_for_scheduler c;
     note_scheduler := note_scheduler c;
     device_manager := device_manager c |}.

Definition set_is_playing_internal (v : bool) (c : Controller) : Controller :=
  {| fluidsynth_player := fluidsynth_player c; notes := notes c;
     _is_playing_internal := v; paused := paused c;
     current_playback_time_sec := current_playback_time_sec c;
     playback_start_real_time := playback_start_real_time c;
     pause_start_time_sec := pause_start_time_sec c;
     tempo_bpm := tempo_bpm c; tempo_scale_factor := tempo_scale_factor c;
     stop_flag := stop_flag c;
     _is_playing_for_scheduler := _is_playing_for_scheduler c;
     note_scheduler := note_scheduler c;
     device_manager := device_manager c |}.

Definition set_paused (v : bool) (c : Controller) : Controller :=
  {| fluidsynth_player := fluidsynth_player c; notes := notes c;
     _is_playing_internal := _is_playing_internal c; paused := v;
     current_playback_time_sec := current_playback_time_sec c;
     playback_start_real_time := playback_start_real_time c;
     pause_start_time_sec := pause_start_time_sec c;
     tempo_bpm := tempo_bpm c; tempo_scale_factor := tempo_scale_factor c;
     stop_flag := stop_flag c;
     _is_playing_for_scheduler := _is_playing_for_scheduler c;
     note_scheduler := note_scheduler c;
     device_manager := device_manager c |}.

Definition set_current_playback_time_sec (v : Q) (c : Controller)
  : Controller :=
  {| fluidsynth_player := fluidsynth_player c; notes := notes c;
     _is_playing_internal := _is_playing_internal c; paused := paused c;
     current_playback_time_sec := v;
     playback_start_real_time := playback_start_real_time c;
     pause_start_time_sec := pause_start_time_sec c;
     tempo_bpm := tempo_bpm c; tempo_scale_factor := tempo_scale_factor c;
     stop_flag := stop_flag c;
     _is_playing_for_scheduler := _is_playing_for_scheduler c;
     note_scheduler := note_scheduler c;
     device_manager := device_manager c |}.

Definition set_playback_start_real_time (v : Q) (c : Controller)
  : Controller :=
  {| fluidsynth_player := fluidsynth_player c; notes := notes c;
     _is_playing_internal := _is_playing_internal c; paused := paused c;
     current_playback_time_sec := current_playback_time_sec c;
     playback_start_real_time := v;
     pause_start_time_sec := pause_start_time_sec c;
     tempo_bpm := tempo_bpm c; tempo_scale_factor := tempo_scale_factor c;
     stop_flag := stop_flag c;
     _is_playing_for_scheduler := _is_playing_for_scheduler c;
     note_scheduler := note_scheduler c;
     device_manager := device_manager c |}.

Definition set_pause_start_time_sec (v : Q) (c : Controller) : Controller :=
  {| fluidsynth_player := fluidsynth_player c; notes := notes c;
     _is_playing_internal := _is_playing_internal c; paused := paused c;
     current_playback_time_sec := current_playback_time_sec c;
     playback_start_real_time := playback_start_real_time c;
     pause_start_time_sec := v;
     tempo_bpm := tempo_bpm c; tempo_scale_factor := tempo_scale_factor c;
     stop_flag := stop_flag c;
     _is_playing_for_scheduler := _is_playing_for_scheduler c;
     note_scheduler := note_scheduler c;
     device_manager := device_manager c |}.

Definition set_tempo_bpm (v : Q) (c : Controller) : Controller :=
  {| fluidsynth_player := fluidsynth_player c; notes := notes c;
     _is_playing_internal := _is_playing_internal c; paused := paused c;
     current_playback_time_sec := current_playback_time_sec c;
     playback_start_real_time := playback_start_real_time c;
     pause_start_time_sec := pause_start_time_sec c;
     tempo_bpm := v; tempo_scale_factor := tempo_scale_factor c;
     stop_flag := stop_flag c;
     _is_playing_for_scheduler := _is_playing_for_scheduler c;
     note_scheduler := note_scheduler c;
     device_manager := device_manager c |}.

Definition set_tempo_scale_factor (v : Q) (c : Controller) : Controller :=
  {| fluidsynth_player := fluidsynth_player c; notes := notes c;
     _is_playing_internal := _is_playing_internal c; paused := paused c;
     current_playback_time_sec := current_playback_time_sec c;
     playback_start_real_time := playback_start_real_time c;
     pause_start_time_sec := pause_start_time_sec c;
     tempo_bpm := tempo_bpm c; tempo_scale_factor := v;
     stop_flag := stop_flag c;
     _is_playing_for_scheduler := _is_playing_for_scheduler c;
     note_scheduler := note_scheduler c;
     device_manager := device_manager c |}.

Definition set_stop_flag (v : bool) (c : Controller) : Controller :=
  {| fluidsynth_player := fluidsynth_player c; notes := notes c;
     _is_playing_internal := _is_playing_internal c; paused := paused c;
     current_playback_time_sec := current_playback_time_sec c;
     playback_start_real_time := playback_start_real_time c;
     pause_start_time_sec := pause_start_time_sec c;
     tempo_bpm := tempo_bpm c; tempo_scale_factor := tempo_scale_factor c;
     stop_flag := v;
     _is_playing_for_scheduler := _is_playing_for_scheduler c;
     note_scheduler := note_scheduler c;
     device_manager := device_manager c |}.

Definition set_is_playing_for_scheduler (v : bool) (c : Controller)
  : Controller :=
  {| fluidsynth_player := fluidsynth_player c; notes := notes c;
     _is_playing_internal := _is_playing_internal c; paused := paused c;
     current_playback_time_sec := current_playback_time_sec c;
     playback_start_real_time := playback_start_real_time c;
     pause_start_time_sec := pause_start_time_sec c;
     tempo_bpm := tempo_bpm c; tempo_scale_factor := tempo_scale_factor c;
     stop_flag := stop_flag c;
     _is_playing_for_scheduler := v;
     note_scheduler := note_scheduler c;
     device_manager := device_manager c |}.

Definition set_note_scheduler (v : option SchedulerState) (c : Controller)
  : Controller :=
  {| fluidsynth_player := fluidsynth_player c; notes := notes c;
     _is_playing_internal := _is_playing_internal c; paused := paused c;
     current_playback_time_sec := current_playback_time_sec c;
     playback_start_real_time := playback_start_real_time c;
     pause_start_time_sec := pause_start_time_sec c;
     tempo_bpm := tempo_bpm c; tempo_scale_factor := tempo_scale_factor c;
     stop_flag := stop_flag c;
     _is_playing_for_scheduler := _is_playing_for_scheduler c;
     note_scheduler := v;
     device_manager := device_manager c |}.

Definition set_sched_notes (v : list Note) (s : SchedulerState)
  : SchedulerState :=
  {| sched_notes := v; midi_output_target := midi_output_target s;
     started := started s; active := active s;
     thread_alive := thread_alive s |}.

Definition set_cursor (st ac : gset nat) (s : SchedulerState)
  : SchedulerState :=
  {| sched_notes := sched_notes s;
     midi_output_target := midi_output_target s;
     started := st; active := ac; thread_alive := thread_alive s |}.

Definition set_thread_alive (v : bool) (s : SchedulerState)
  : SchedulerState :=
  {| sched_notes := sched_notes s;
     midi_output_target := midi_output_target s;
     started := started s; active := active s; thread_alive := v |}.

(** *** Access to the two halves of the system *)

Definition on_world {A : Type} (m : M World A) : M System A :=
  zoom world (fun w s => {| world := w; ctrl := ctrl s |}) m.

Definition self_get {A : Type} (f : Controller -> A) : M System A :=
  gets (fun s => f (ctrl s)).

Definition self_set (f : Controller -> Controller) : M System unit :=
  modify (fun s => {| world := world s; ctrl := f (ctrl s) |}).

(** Time passes for the whole system. *)
Definition wait (d : Q) (s : System) : System :=
  {| world := advance d (world s); ctrl := ctrl s |}.

(** [a / b] on floats. *)
Definition py_div {S : Type} (a b : Q) : M S Q :=
  if Qeq_bool b 0 then raise ZeroDivisionError else ret (a / b).

(** [max(a, b)]: the first argument unless the second is greater. *)
Definition py_max (a b : Q) : Q := if Qle_bool b a then a else b.

Definition target_of (p : option FluidSynthPlayer.t) : Target :=
  match p with
  | Some q => TFluid q
  | None => TNone
  end.

Definition target_eqb (a b : Target) : bool :=
  match a, b with
  | TNone, TNone => true
  | TFluid p, TFluid q => FluidSynthPlayer.eqb p q
  | TPygame, TPygame => true
  | TOther x, TOther y => Bool.eqb x y
  | _, _ => false
  end.

(** ** The Note Scheduler *)

Module NoteScheduler.

(** Modelled from the spec: the constructor of [NoteScheduler]
    ([midi/note_scheduler.py] is missing); its arguments [notes] and
    [midi_output_target] are those of the call in [_ensure_scheduler], the
    cursor starts empty and no thread exists yet. *)
Definition new (notes : list Note) (midi_output_target : Target)
  : SchedulerState :=
  {| sched_notes := notes; midi_output_target := midi_output_target;
     started := ∅; active := ∅; thread_alive := false |}.

(** A method called on [self.note_scheduler]; on [None] Python raises
    [AttributeError]. *)
Definition method {A : Type} (body : SchedulerState -> M System A)
  : M System A :=
  sch <~ self_get note_scheduler ;;
  match sch with
  | Some s => body s
  | None => raise AttributeError
  end.

Definition store (s : SchedulerState) : M System unit :=
  self_set (set_note_scheduler (Some s)).

(** Modelled from the spec: [update_notes] of the missing
    [midi/note_scheduler.py]; it "replaces the list the loop iterates". *)
Definition update_notes (notes : list Note) : M System unit :=
  method (fun s => store (set_sched_notes notes s)).

(** Modelled from the spec: [reset_playback_position] of the missing
    [midi/note_scheduler.py]; it "clears all started/active bookkeeping so
    that re-entering the loop at pos re-evaluates every note's window
    fresh". *)
Definition reset_playback_position (pos : Q) : M System unit :=
  method (fun s => store (set_cursor ∅ ∅ s)).

(** Modelled from the spec: [start_playback_thread] of the missing
    [midi/note_scheduler.py]; the background loop exists afterwards. *)
Definition start_playback_thread : M System unit :=
  method (fun s => store (set_thread_alive true s)).

(** Modelled from the spec: [stop_playback_thread] of the missing
    [midi/note_scheduler.py].  It signals the loop through the stop flag
    (the controller's [seek] relies on this), "always issuing a final all
    notes off", and its synchronous variant returns when the loop has
    exited; after the asynchronous one the loop is still there until it
    observes the flag. *)
Definition stop_playback_thread (join : bool) : M System unit :=
  method (fun s =>
    self_set (set_stop_flag true) >>>
    on_world (midi_event_utils.send_all_notes_off (midi_output_target s)) >>>
    when join (store (set_thread_alive false s))).

(** The window test of step 2: [start_time <= pos < end_time]. *)
Definition in_window (n : Note) (pos : Q) : bool :=
  Qle_bool (start_time n) pos && negb (Qle_bool (end_time n) pos).

(** The list with its indices, as [enumerate] gives it. *)
Definition enumerate {A : Type} (l : list A) : list (nat * A) :=
  combine (seq 0 (length l)) l.

(** Step 2: the notes "not yet started whose
    start_time <= current position < end_time". *)
Definition due_on (s : SchedulerState) (pos : Q) : list (nat * Note) :=
  List.filter
    (fun e => negb (bool_decide (fst e ∈ started s)) && in_window (snd e) pos)
    (enumerate (sched_notes s)).

(** Step 3: the "active note[s] whose end_time <= current position". *)
Definition due_off (s : SchedulerState) (pos : Q) : list (nat * Note) :=
  List.filter
    (fun e => bool_decide (fst e ∈ active s) && Qle_bool (end_time (snd e)) pos)
    (enumerate (sched_notes s)).

Definition indices (l : list (nat * Note)) : gset nat :=
  list_to_set (map fst l).

Definition on_event (e : nat * Note) : Event :=
  (fst e, NoteOn (channel (snd e)) (pitch (snd e)) (velocity (snd e))).

Definition off_event (e : nat * Note) : Event :=
  (fst e, NoteOff (channel (snd e)) (pitch (snd e))).

Definition dispatch_on (target : Target) (e : nat * Note) : M System unit :=
  on_world (midi_event_utils.send_note_on target
              (VInt (pitch (snd e))) (VInt (velocity (snd e)))
              (VInt (channel (snd e)))).

Definition dispatch_off (target : Target) (e : nat * Note)
  : M System unit :=
  on_world (midi_event_utils.send_note_off target
              (VInt (pitch (snd e))) (VInt 0) (VInt (channel (snd e)))).

(** Modelled from the spec: steps 2 and 3 of one wake-up of the loop of
    the missing [midi/note_scheduler.py], at the position [pos] read in
    step 1.  The result lists what was dispatched, each entry with the
    index of its note. *)
Definition dispatch_due (pos : Q) : M System (list Event) :=
  method (fun s =>
    let ons := due_on s pos in
    for_each ons (dispatch_on (midi_output_target s)) >>>
    let s1 := set_cursor (started s ∪ indices ons) (active s ∪ indices ons) s in
    store s1 >>>
    let offs := due_off s1 pos in
    for_each offs (dispatch_off (midi_output_target s)) >>>
    store (set_cursor (started s1) (active s1 ∖ indices offs) s1) >>>
    ret (map on_event ons ++ map off_event offs)).

(** Modelled from the spec: one wake-up of the background loop of the
    missing [midi/note_scheduler.py].  The loop ends when it finds the
    stop flag set, idles while the controller is not actively playing,
    and otherwise reads the position through the accessor it was given
    and dispatches what is due. *)
Definition tick (get_current_time_func : M System Q)
  : M System (list Event) :=
  method (fun s =>
    if negb (thread_alive s) then ret []
    else
      stop <~ self_get stop_flag ;;
      if stop then store (set_thread_alive false s) >>> ret []
      else
        playing <~ self_get _is_playing_for_scheduler ;;
        if negb playing then ret []
        else
          pos <~ get_current_time_func ;;
          dispatch_due pos).

End NoteScheduler.

(** ** midi/playback_controller.py *)

(** [INSTRUMENT_MAPPINGS] of [config/constants.py]. *)
Definition INSTRUMENT_MAPPINGS : list (string * Z) :=
  [("EZ Pluck"%string, 0%Z); ("Synth Lead"%string, 80%Z);
   ("Warm Pad"%string, 89%Z); ("Classic Piano"%string, 1%Z)].

(** [d.get(key, default)] *)
Fixpoint dict_get (d : list (string * Z)) (key : string) (default : Z) : Z :=
  match d with
  | [] => default
  | (k, v) :: d' => if String.eqb k key then v else dict_get d' key default
  end.

Module PlaybackController.

Definition set_instrument (program_number channel : Z) : M System unit :=
  player <~ self_get fluidsynth_player ;;
  match player with
  | Some p =>
      if FluidSynthPlayer.fs p
      then try_except
             (on_world (FluidSynthPlayer.program_change p channel
                          program_number))
             (fun _ => ret tt)
      else ret tt
  | None => ret tt
  end.

(** [__init__]; [made] is what the call [FluidSynthPlayer(SOUNDFONT_PATH)]
    gave: an exception or a player object. *)
Definition init (made : Exn + FluidSynthPlayer.t) (w : World) : System :=
  let player :=
    match made with
    | inr p => if negb (FluidSynthPlayer.fs p) then None else Some p
    | inl _ => None
    end in
  let w' :=
    match player with
    | Some p =>
        snd (try_except
               (FluidSynthPlayer.program_change p 0
                  (dict_get INSTRUMENT_MAPPINGS "EZ Pluck" 0))
               (fun _ => ret tt) w)
    | None => w
    end in
  {| world := w';
     ctrl := {| fluidsynth_player := player;
                notes := [];
                _is_playing_internal := false;
                paused := false;
                current_playback_time_sec := 0;
                playback_start_real_time := 0;
                pause_start_time_sec := 0;
                tempo_bpm := 120;
                tempo_scale_factor := 1;
                stop_flag := false;
                _is_playing_for_scheduler := false;
                note_scheduler := None;
                device_manager := None |} |}.

Definition _ensure_scheduler : M System unit :=
  player <~ self_get fluidsynth_player ;;
  match player with
  | None => self_set (set_note_scheduler None)
  | Some p =>
      sch <~ self_get note_scheduler ;;
      match sch with
      | None =>
          ns <~ self_get notes ;;
          self_set (set_note_scheduler (Some (NoteScheduler.new ns (TFluid p))))
      | Some s =>
          if negb (target_eqb (midi_output_target s) (TFluid p))
          then
            NoteScheduler.stop_playback_thread true >>>
            ns <~ self_get notes ;;
            self_set
              (set_note_scheduler (Some (NoteScheduler.new ns (TFluid p))))
          else
            ns <~ self_get notes ;;
            NoteScheduler.update_notes ns
      end
  end.

Definition get_current_position : M System Q :=
  playing <~ self_get _is_playing_internal ;;
  is_paused <~ self_get paused ;;
  if playing && negb is_paused then
    now <~ on_world time_time ;;
    start <~ self_get playback_start_real_time ;;
    scale <~ self_get tempo_scale_factor ;;
    let elapsed_real_time := now - start in
    self_set (set_current_playback_time_sec (elapsed_real_time * scale)) >>>
    self_get current_playback_time_sec
  else if is_paused then self_get pause_start_time_sec
  else self_get current_playback_time_sec.

Definition stop : M System unit :=
  self_set (set_is_playing_internal false) >>>
  self_set (set_is_playing_for_scheduler false) >>>
  self_set (set_paused false) >>>
  sch <~ self_get note_scheduler ;;
  player <~ self_get fluidsynth_player ;;
  match sch, player with
  | Some _, _ => NoteScheduler.stop_playback_thread true
  | None, Some p => on_world (midi_event_utils.send_all_notes_off (TFluid p))
  | None, None => ret tt
  end >>>
  self_set (set_current_playback_time_sec 0) >>>
  self_set (set_pause_start_time_sec 0) >>>
  sch' <~ self_get note_scheduler ;;
  match sch' with
  | Some _ => NoteScheduler.reset_playback_position 0
  | None => ret tt
  end.

Definition set_notes (new_notes : list Note) : M System unit :=
  player <~ self_get fluidsynth_player ;;
  match player with
  | Some _ => stop
  | None =>
      self_set (set_is_playing_internal false) >>>
      self_set (set_is_playing_for_scheduler false) >>>
      self_set (set_paused false)
  end >>>
  self_set (set_notes_attr new_notes) >>>
  self_set (set_current_playback_time_sec 0) >>>
  self_set (set_pause_start_time_sec 0) >>>
  match player with
  | Some _ =>
      sch <~ self_get note_scheduler ;;
      match sch with
      | Some _ =>
          ns <~ self_get notes ;;
          NoteScheduler.update_notes ns >>>
          NoteScheduler.reset_playback_position 0
      | None => _ensure_scheduler
      end
  | None => ret tt
  end.

Definition play : M System unit :=
  player <~ self_get fluidsynth_player ;;
  match player with
  | None => ret tt
  | Some _ =>
      ns <~ self_get notes ;;
      match ns with
      | [] => ret tt
      | _ :: _ =>
          _ensure_scheduler >>>
          sch <~ self_get note_scheduler ;;
          match sch with
          | None => ret tt
          | Some s =>
              if negb (truthy (midi_output_target s)) then ret tt
              else
                playing <~ self_get _is_playing_internal ;;
                is_paused <~ self_get paused ;;
                if playing && negb is_paused then ret tt
                else
                  self_set (set_stop_flag false) >>>
                  self_set (set_is_playing_internal true) >>>
                  self_set (set_is_playing_for_scheduler true) >>>
                  now <~ on_world time_time ;;
                  scale <~ self_get tempo_scale_factor ;;
                  (if is_paused then
                     from <~ self_get pause_start_time_sec ;;
                     offset <~ py_div from scale ;;
                     self_set (set_playback_start_real_time (now - offset)) >>>
                     self_set (set_paused false)
                   else
                     from <~ self_get current_playback_time_sec ;;
                     offset <~ py_div from scale ;;
                     self_set (set_playback_start_real_time (now - offset)) >>>
                     NoteScheduler.reset_playback_position from) >>>
                  NoteScheduler.start_playback_thread
          end
      end
  end.

Definition pause : M System unit :=
  playing <~ self_get _is_playing_internal ;;
  is_paused <~ self_get paused ;;
  if playing && negb is_paused then
    self_set (set_paused true) >>>
    self_set (set_is_playing_internal false) >>>
    self_set (set_is_playing_for_scheduler false) >>>
    pos <~ get_current_position ;;
    self_set (set_pause_start_time_sec pos) >>>
    player <~ self_get fluidsynth_player ;;
    match player with
    | Some p => on_world (midi_event_utils.send_all_notes_off (TFluid p))
    | None => ret tt
    end
  else ret tt.

Definition seek (position_sec : Q) : M System unit :=
  player <~ self_get fluidsynth_player ;;
  match player with
  | None =>
      self_set (set_current_playback_time_sec (py_max 0 position_sec)) >>>
      cur <~ self_get current_playback_time_sec ;;
      self_set (set_pause_start_time_sec cur)
  | Some p =>
      on_world (midi_event_utils.send_all_notes_off (TFluid p)) >>>
      self_set (set_current_playback_time_sec (py_max 0 position_sec)) >>>
      cur <~ self_get current_playback_time_sec ;;
      self_set (set_pause_start_time_sec cur) >>>
      sch <~ self_get note_scheduler ;;
      match sch with
      | Some _ => NoteScheduler.reset_playback_position cur
      | None => ret tt
      end >>>
      now <~ on_world time_time ;;
      scale <~ self_get tempo_scale_factor ;;
      offset <~ py_div cur scale ;;
      self_set (set_playback_start_real_time (now - offset)) >>>
      playing <~ self_get _is_playing_internal ;;
      is_paused <~ self_get paused ;;
      if playing && negb is_paused then
        sch' <~ self_get note_scheduler ;;
        match sch' with
        | Some _ =>
            NoteScheduler.stop_playback_thread false >>>
            self_set (set_stop_flag false) >>>
            self_set (set_is_playing_for_scheduler true) >>>
            NoteScheduler.start_playback_thread
        | None => ret tt
        end
      else ret tt
  end.

(** The property [is_playing]. *)
Definition is_playing : M System bool :=
  playing <~ self_get _is_playing_internal ;;
  is_paused <~ self_get paused ;;
  ret (playing && negb is_paused).

Definition toggle_playback : M System unit :=
  b <~ is_playing ;;
  if b then pause else play.

Definition set_tempo (bpm : Q) : M System unit :=
  if Qle_bool bpm 0 then ret tt
  else
    current_pos_before_tempo_change <~ get_current_position ;;
    self_set (set_tempo_bpm bpm) >>>
    tempo <~ self_get tempo_bpm ;;
    self_set (set_tempo_scale_factor (tempo / 120)) >>>
    playing <~ self_get _is_playing_internal ;;
    is_paused <~ self_get paused ;;
    if playing || is_paused then
      now <~ on_world time_time ;;
      scale <~ self_get tempo_scale_factor ;;
      offset <~ py_div current_pos_before_tempo_change scale ;;
      self_set (set_playback_start_real_time (now - offset))
    else ret tt.

(** [self.device_manager.close_device()]: reading an attribute the object
    does not have raises [AttributeError]. *)
Definition cleanup : M System unit :=
  stop >>>
  manager <~ self_get device_manager ;;
  match manager with
  | None => raise AttributeError
  | Some _ => ret tt
  end.

End PlaybackController.

(** ** The system as a whole *)

(** One wake-up of the scheduler's loop; the accessor it was constructed
    with is the controller's [get_current_position].  Without a scheduler
    object there is no loop, and nothing happens. *)
Definition scheduler_wake : M System (list Event) :=
  sch <~ self_get note_scheduler ;;
  match sch with
  | Some _ => NoteScheduler.tick PlaybackController.get_current_position
  | None => ret []
  end.

(** A stretch of playback: before each wake-up of the loop the given time
    passes.  The result lists the wake-ups, each with what it dispatched. *)
Fixpoint playback_run (delays : list Q) : M System (list (list Event)) :=
  match delays with
  | [] => ret []
  | d :: rest =>
      (fun s => (inr tt, wait d s)) >>>
      evs <~ scheduler_wake ;;
      more <~ playback_run rest ;;
      ret (evs :: more)
  end.

(** The three modes of the transport. *)
Inductive Mode : Type := Stopped | Playing | Paused.

Definition mode (c : Controller) : Mode :=
  if _is_playing_internal c && negb (paused c) then Playing
  else if paused c then Paused
  else Stopped.

(** A computation that returns normally and leaves the clock and the
    environment alone: all it may do is call the backend. *)
Definition calls_only (m : M World unit) : Prop :=
  forall w, exists calls,
    m w = (inr tt, {| env := env w; clock := clock w;
                      trace := trace w ++ calls |}).

(** The same for a computation of the whole system: the controller is not
    touched either. *)
Definition calls_only_sys (m : M System unit) : Prop :=
  forall s, exists w,
    m s = (inr tt, {| world := w; ctrl := ctrl s |}) /\
    env w = env (world s) /\ clock w = clock (world s).

(** Does a dispatch to this target reach a backend at all? *)
Definition reaches_backend (d : Target) : bool :=
  match d with
  | TFluid p => FluidSynthPlayer.fs p
  | TPygame => true
  | _ => false
  end.

(** The states the program can be in: the constructor's result, and what
    the public operations, the passing of time and the wake-ups of the
    background loop make of a state. *)
Inductive reachable : System -> Prop :=
| reach_init made w :
    reachable (PlaybackController.init made w)
| reach_wait d s :
    0 <= d -> reachable s -> reachable (wait d s)
| reach_wake s :
    reachable s -> reachable (snd (scheduler_wake s))
| reach_set_notes ns s :
    reachable s -> reachable (snd (PlaybackController.set_notes ns s))
| reach_play s :
    reachable s -> reachable (snd (PlaybackController.play s))
| reach_pause s :
    reachable s -> reachable (snd (PlaybackController.pause s))
| reach_stop s :
    reachable s -> reachable (snd (PlaybackController.stop s))
| reach_seek t s :
    reachable s -> reachable (snd (PlaybackController.seek t s))
| reach_get_current_position s :
    reachable s -> reachable (snd (PlaybackController.get_current_position s))
| reach_toggle_playback s :
    reachable s -> reachable (snd (PlaybackController.toggle_playback s))
| reach_set_tempo bpm s :
    reachable s -> reachable (snd (PlaybackController.set_tempo bpm s))
| reach_set_instrument prog chan s :
    reachable s ->
    reachable (snd (PlaybackController.set_instrument prog chan s))
| reach_cleanup s :
    reachable s -> reachable (snd (PlaybackController.cleanup s)).

(** What holds of the controller in every reachable state. *)
Record wf (c : Controller) : Prop := {
  wf_scale : 0 < tempo_scale_factor c;
  wf_manager : device_manager c = None;
  wf_flag : _is_playing_for_scheduler c = _is_playing_internal c;
  wf_exclusive : _is_playing_internal c = true -> paused c = false;
  wf_player : forall p, fluidsynth_player c = Some p ->
                        FluidSynthPlayer.fs p = true;
  wf_stub : fluidsynth_player c = None ->
            _is_playing_internal c = false /\ paused c = false /\
            note_scheduler c = None;
  wf_running : _is_playing_internal c = true \/ paused c = true ->
               notes c <> [] /\ note_scheduler c <> None;
  wf_sched : forall s, note_scheduler c = Some s ->
               midi_output_target s = target_of (fluidsynth_player c) /\
               sched_notes s = notes c /\ fluidsynth_player c <> None
}.

(** The fields of the Transport State. *)
Definition transport (c : Controller) : bool * bool * Q * Q * Q * Q * Q :=
  (_is_playing_internal c, paused c, current_playback_time_sec c,
   playback_start_real_time c, pause_start_time_sec c, tempo_bpm c,
   tempo_scale_factor c).

(** Is a background loop in existence? *)
Definition thread_running (c : Controller) : bool :=
  match note_scheduler c with
  | Some s => thread_alive s
  | None => false
  end.

(** The attribute writes of [stop], collected: what [stop] makes of the
    controller (see [stop_spec]). *)
Definition stopped (c : Controller) : Controller :=
  let c1 := set_paused false
              (set_is_playing_for_scheduler false
                 (set_is_playing_internal false c)) in
  let c2 :=
    match note_scheduler c with
    | Some sch =>
        set_note_scheduler (Some (set_thread_alive false sch))
          (set_stop_flag true c1)
    | None => c1
    end in
  let c3 := set_pause_start_time_sec 0 (set_current_playback_time_sec 0 c2) in
  match note_scheduler c3 with
  | Some sch => set_note_scheduler (Some (set_cursor ∅ ∅ sch)) c3
  | None => c3
  end.

(** ** The scheduler's run, seen without the controller

    [cursor_step] collects what [NoteScheduler.dispatch_due] does to the
    scheduler object and what it returns (see [wake_running]). *)

(** The events that carry the index [i]. *)
Definition events_of (i : nat) (evs : list Event) : list Event :=
  List.filter (fun e => Nat.eqb (fst e) i) evs.

(** One wake-up, on the scheduler object alone. *)
Definition cursor_step (sch : SchedulerState) (pos : Q)
  : SchedulerState * list Event :=
  let ons := NoteScheduler.due_on sch pos in
  let s1 := set_cursor (started sch ∪ NoteScheduler.indices ons)
                       (active sch ∪ NoteScheduler.indices ons) sch in
  let offs := NoteScheduler.due_off s1 pos in
  (set_cursor (started s1) (active s1 ∖ NoteScheduler.indices offs) s1,
   map NoteScheduler.on_event ons ++ map NoteScheduler.off_event offs).

(** Wake-ups at the positions [ps], one after the other. *)
Fixpoint cursor_run (sch : SchedulerState) (ps : list Q) : list (list Event) :=
  match ps with
  | [] => []
  | p :: rest =>
      let '(sch', evs) := cursor_step sch p in evs :: cursor_run sch' rest
  end.

(** The same wake-up seen from one note: [(st, ac)] tell whether the note
    is marked started and active. *)
Definition note_step (n : Note) (st ac : bool) (pos : Q)
  : bool * bool * list Dispatch :=
  let on := negb st && NoteScheduler.in_window n pos in
  let off := (ac || on) && Qle_bool (end_time n) pos in
  (st || on, (ac || on) && negb off,
   (if on then [NoteOn (channel n) (pitch n) (velocity n)] else []) ++
   (if off then [NoteOff (channel n) (pitch n)] else [])).

(** What one note is sent over wake-ups at the positions [ps]. *)
Fixpoint note_run (n : Note) (st ac : bool) (ps : list Q) : list Dispatch :=
  match ps with
  | [] => []
  | p :: rest =>
      let '(st', ac', evs) := note_step n st ac p in
      evs ++ note_run n st' ac' rest
  end.

(** The two marks of the note at index [i]. *)
Definition is_started (i : nat) (sch : SchedulerState) : bool :=
  bool_decide (i ∈ started sch).

Definition is_active (i : nat) (sch : SchedulerState) : bool :=
  bool_decide (i ∈ active sch).

(** The two dispatches of a note. *)
Definition note_on_of (n : Note) : Dispatch :=
  NoteOn (channel n) (pitch n) (velocity n).

Definition note_off_of (n : Note) : Dispatch :=
  NoteOff (channel n) (pitch n).

(** The positions the loop reads when the given delays pass before its
    wake-ups. *)
Fixpoint polled (now anchor scale : Q) (delays : list Q) : list Q :=
  match delays with
  | [] => []
  | d :: rest => (now + d - anchor) * scale :: polled (now + d) anchor scale rest
  end.

(** The positions read in a run that starts in state [s]. *)
Definition virtual_positions (s : System) (delays : list Q) : list Q :=
  polled (clock (world s)) (playback_start_real_time (ctrl s))
    (tempo_scale_factor (ctrl s)) delays.

(** The loop is alive and dispatching, with the scheduler object [sch]. *)
Definition running (s : System) (sch : SchedulerState) : Prop :=
  note_scheduler (ctrl s) = Some sch /\
  thread_alive sch = true /\
  stop_flag (ctrl s) = false /\
  _is_playing_for_scheduler (ctrl s) = true /\
  _is_playing_internal (ctrl s) = true /\
  paused (ctrl s) = false.

(** The wall-clock time elapsed at each wake-up. *)
Fixpoint elapsed (acc : Q) (delays : list Q) : list Q :=
  match delays with
  | [] => []
  | d :: rest => (acc + d) :: elapsed (acc + d) rest
  end.

(** ** A concrete session

    A controller with a working synthesizer, one note of ten seconds, and
    playback started at time 0. *)

Definition quiet_env : Env :=
  {| backend_raises := fun _ _ => false; int_of_str := fun _ => None |}.

Definition world0 : World := {| env := quiet_env; clock := 0; trace := [] |}.

Definition fluid : FluidSynthPlayer.t :=
  {| FluidSynthPlayer.fs := true; FluidSynthPlayer.sfid := 1 |}.

Definition note_c4 : Note :=
  {| pitch := 60; velocity := 100; start_time := 0; end_time := 10;
     channel := 0 |}.

Definition fresh : System := PlaybackController.init (inr fluid) world0.

Definition playing_from_0 : System :=
  snd (PlaybackController.play
         (snd (PlaybackController.set_notes [note_c4] fresh))).

Definition playing_at_5 : System := wait 5 playing_from_0.



(** ** What a sequence of backend calls leaves in the trace

    The calls of [cs] are made in order until one raises: that one is still
    recorded, the later ones are not made. *)
Fixpoint attempted (raises : list Call -> Call -> bool) (tr : list Call)
  (cs : list Call) : list Call :=
  match cs with
  | [] => []
  | c :: rest =>
      c :: (if raises tr c then [] else attempted raises (tr ++ [c]) rest)
  end.

(** Does one of the calls made raise? *)
Fixpoint some_raises (raises : list Call -> Call -> bool) (tr : list Call)
  (cs : list Call) : bool :=
  match cs with
  | [] => false
  | c :: rest => raises tr c || some_raises raises (tr ++ [c]) rest
  end.

Definition with_calls (w : World) (cs : list Call) : World :=
  {| env := env w; clock := clock w; trace := trace w ++ cs |}.


(** ** What the operations leave in the trace *)

(** The calls [send_all_notes_off] sets out to make: controller 123 with
    value 0 on channels 0 to 15, in this order. *)
Definition all_notes_off_calls (d : Target) : list Call :=
  match d with
  | TFluid p =>
      if FluidSynthPlayer.fs p
      then map (fun ch => fs_cc ch 123 0) range16 else []
  | TPygame => map (fun ch => pg_write_short (176 + ch) 123 0) range16
  | _ => []
  end.




(** The call [FluidSynthPlayer.program_change] makes on the library. *)
Definition program_select_calls (p : option FluidSynthPlayer.t) (chan prog : Z)
  : list Call :=
  match p with
  | Some q =>
      if FluidSynthPlayer.fs q && negb (Z.eqb (FluidSynthPlayer.sfid q) (-1))
      then [fs_program_select chan (FluidSynthPlayer.sfid q) 0 prog]
      else []
  | None => []
  end.



(** A controller whose synthesizer failed to initialise. *)
Definition stub : System := PlaybackController.init (inl BackendError) world0.

(** A controller with a note list installed, not yet played. *)
Definition loaded : System :=
  snd (PlaybackController.set_notes [note_c4] fresh).

(** ** The life cycle of a [FluidSynthPlayer] object

    [__init__], [set_gain] and [cleanup] of [midi/fluidsynth_player.py].
    They talk to the synthesizer library and to the file system; what these
    answer is given by a [Host].  [alt_path] stands for the path
    computation [os.path.join(os.path.dirname(__file__), "..", "soundbank",
    os.path.basename(path))]. *)

Module FluidSynthObject.

Inductive HostCall : Type :=
| synth_new (samplerate : Z) (gain : Q)
| synth_sfload (path : string)
| synth_program_select (chan sfid bank preset : Z)
| synth_set_gain (gain : Q)
| synth_delete.

Record Host : Type := {
  raises : list HostCall -> HostCall -> bool;
  file_exists : string -> bool;
  sfload_result : string -> Z;
  alt_path : string -> string
}.

(** The attributes of the object. *)
Record t : Type := {
  fs : bool;
  sfid : Z;
  soundfont_path : string
}.

Record St : Type := {
  host : Host;
  calls : list HostCall;
  self : t
}.

Definition call (c : HostCall) : M St unit :=
  fun st =>
    let st' := {| host := host st; calls := calls st ++ [c]; self := self st |} in
    if raises (host st) (calls st) c then (inl BackendError, st')
    else (inr tt, st').

Definition write (f : t -> t) : M St unit :=
  modify (fun st => {| host := host st; calls := calls st; self := f (self st) |}).

Definition set_fs (v : bool) (o : t) : t :=
  {| fs := v; sfid := sfid o; soundfont_path := soundfont_path o |}.

Definition set_sfid (v : Z) (o : t) : t :=
  {| fs := fs o; sfid := v; soundfont_path := soundfont_path o |}.

Definition set_soundfont_path (v : string) (o : t) : t :=
  {| fs := fs o; sfid := sfid o; soundfont_path := v |}.

Definition init (path : string) (sample_rate : Z) (gain : Q) : M St unit :=
  write (fun _ => {| fs := false; sfid := -1; soundfont_path := path |}) >>>
  made <~ try_except
            (call (synth_new sample_rate gain) >>>
             write (set_fs true) >>> ret true)
            (fun _ => ret false) ;;
  if negb made then ret tt
  else
    h <~ gets host ;;
    p <~ gets (fun st => soundfont_path (self st)) ;;
    found <~ (if file_exists h p then ret true
              else
                let alt_sf_path := alt_path h p in
                if file_exists h alt_sf_path
                then write (set_soundfont_path alt_sf_path) >>> ret true
                else call synth_delete >>> write (set_fs false) >>> ret false) ;;
    if negb found then ret tt
    else
      p' <~ gets (fun st => soundfont_path (self st)) ;;
      call (synth_sfload p') >>>
      write (set_sfid (sfload_result h p')) >>>
      id <~ gets (fun st => sfid (self st)) ;;
      if Z.eqb id (-1)
      then call synth_delete >>> write (set_fs false)
      else for_each range16 (fun i => call (synth_program_select i id 0 0)).

Definition set_gain (gain : Q) : M St unit :=
  has <~ gets (fun st => fs (self st)) ;;
  if negb has then ret tt
  else try_except (call (synth_set_gain gain)) (fun _ => ret tt).

Definition cleanup : M St unit :=
  has <~ gets (fun st => fs (self st)) ;;
  if has
  then try_except (call synth_delete >>> write (set_fs false))
                  (fun _ => ret tt)
  else ret tt.

(** The sound font file [__init__] settles on. *)
Definition chosen (h : Host) (path : string) : option string :=
  if file_exists h path then Some path
  else if file_exists h (alt_path h path) then Some (alt_path h path)
  else None.

(** The object and the library calls of a construction in which no call
    raises. *)
Definition built (h : Host) (path : string) : t :=
  match chosen h path with
  | None => {| fs := false; sfid := -1; soundfont_path := path |}
  | Some p =>
      if Z.eqb (sfload_result h p) (-1)
      then {| fs := false; sfid := -1; soundfont_path := p |}
      else {| fs := true; sfid := sfload_result h p; soundfont_path := p |}
  end.

Definition build_calls (h : Host) (path : string) (sample_rate : Z) (gain : Q)
  : list HostCall :=
  synth_new sample_rate gain ::
  match chosen h path with
  | None => [synth_delete]
  | Some p =>
      synth_sfload p ::
      (if Z.eqb (sfload_result h p) (-1) then [synth_delete]
       else map (fun i => synth_program_select i (sfload_result h p) 0 0)
                range16)
  end.

(** A host none of whose calls raises. *)
Definition quiet_host (h : Host) : Prop :=
  forall tr c, raises h tr c = false.

(** The state after the calls [cs], the object being [o]. *)
Definition logged (st : St) (cs : list HostCall) (o : t) : St :=
  {| host := host st; calls := calls st ++ cs; self := o |}.

(** A host on which the sound font is found only at the alternative path. *)
Definition host_alt : Host :=
  {| raises := fun _ _ => false;
     file_exists := fun p => String.eqb p "../soundbank/soundfont.sf2";
     sfload_result := fun _ => 1%Z;
     alt_path := fun _ => "../soundbank/soundfont.sf2"%string |}.

(** A host on which the synthesizer cannot be created. *)
Definition host_no_synth : Host :=
  {| raises := fun _ c => match c with synth_new _ _ => true | _ => false end;
     file_exists := fun _ => true;
     sfload_result := fun _ => 1%Z;
     alt_path := fun p => p |}.

(** The state before [__init__] runs. *)
Definition unbuilt (h : Host) : St :=
  {| host := h; calls := [];
     self := {| fs := false; sfid := -1; soundfont_path := EmptyString |} |}.

(** The player constructed on [host_alt]. *)
Definition built_alt : St :=
  snd (init "soundbank/soundfont.sf2" 44100 (1 # 2) (unbuilt host_alt)).

End FluidSynthObject.

(** * Properties *)

(** ** The dispatch helpers *)

Lemma try_except_pass_returns {S : Type} (body : M S unit) (s : S) :
  fst (try_except body (fun _ => ret tt) s) = inr tt.
Proof.
  unfold try_except, ret.
  destruct (body s) as [[e | []] s']; reflexivity.
Qed.

Lemma extern_world (c : Call) (w : World) :
  snd (extern c w) = record_call c w.
Proof. unfold extern. destruct (backend_raises _ _ _); reflexivity. Qed.

(** A computation that only appends to the trace. *)
Definition appends {A : Type} (m : M World A) : Prop :=
  forall w, exists calls,
    snd (m w) = {| env := env w; clock := clock w;
                   trace := trace w ++ calls |}.

Lemma appends_ret {A : Type} (a : A) : appends (ret a).
Proof. intros w. exists []. simpl. rewrite app_nil_r. destruct w; reflexivity. Qed.

Lemma appends_raise {A : Type} (e : Exn) : appends (@raise World A e).
Proof. intros w. exists []. simpl. rewrite app_nil_r. destruct w; reflexivity. Qed.

Lemma appends_extern (c : Call) : appends (extern c).
Proof. intros w. exists [c]. rewrite extern_world. reflexivity. Qed.

Lemma appends_bind {A B : Type} (m : M World A) (k : A -> M World B) :
  appends m -> (forall a, appends (k a)) -> appends (bind m k).
Proof.
  intros Hm Hk w. unfold bind.
  destruct (Hm w) as [c1 E1].
  destruct (m w) as [[e | a] w1]; simpl in E1; subst w1.
  - exists c1. reflexivity.
  - destruct (Hk a {| env := env w; clock := clock w; trace := trace w ++ c1 |})
      as [c2 E2].
    exists (c1 ++ c2). rewrite E2. simpl. rewrite app_assoc. reflexivity.
Qed.

Lemma appends_try {A : Type} (m : M World A) (h : Exn -> M World A) :
  appends m -> (forall e, appends (h e)) -> appends (try_except m h).
Proof.
  intros Hm Hh w. unfold try_except.
  destruct (Hm w) as [c1 E1].
  destruct (m w) as [[e | a] w1]; simpl in E1; subst w1.
  - destruct (Hh e {| env := env w; clock := clock w; trace := trace w ++ c1 |})
      as [c2 E2].
    exists (c1 ++ c2). rewrite E2. simpl. rewrite app_assoc. reflexivity.
  - exists c1. reflexivity.
Qed.

Lemma appends_for_each {A : Type} (xs : list A) (body : A -> M World unit) :
  (forall x, appends (body x)) -> appends (for_each xs body).
Proof.
  intros Hb. induction xs as [| x xs IH]; simpl.
  - apply appends_ret.
  - apply appends_bind; [apply Hb | intros _; exact IH].
Qed.

Lemma appends_py_int (v : PyVal) : appends (py_int v).
Proof.
  destruct v; simpl; try apply appends_ret; try apply appends_raise.
  intros w. exists []. rewrite app_nil_r.
  destruct (int_of_str (env w) s); destruct w; reflexivity.
Qed.

Ltac appends_tac :=
  repeat first
    [ apply appends_ret | apply appends_raise | apply appends_extern
    | apply appends_py_int
    | apply appends_try; [| intros ?]
    | apply appends_bind; [| intros ?]
    | apply appends_for_each; intros ?
    | match goal with
      | |- appends (if ?b then _ else _) => destruct b
      | |- appends (match ?d with _ => _ end) => destruct d
      end ].

Lemma appends_noteon p c k v : appends (FluidSynthPlayer.noteon p c k v).
Proof. unfold FluidSynthPlayer.noteon. appends_tac. Qed.

Lemma appends_noteoff p c k : appends (FluidSynthPlayer.noteoff p c k).
Proof. unfold FluidSynthPlayer.noteoff. appends_tac. Qed.

Lemma appends_program_change p c k :
  appends (FluidSynthPlayer.program_change p c k).
Proof. unfold FluidSynthPlayer.program_change. appends_tac. Qed.

Lemma appends_send_note_on d p v c :
  appends (midi_event_utils.send_note_on d p v c).
Proof.
  unfold midi_event_utils.send_note_on. appends_tac; apply appends_noteon.
Qed.

Lemma appends_send_note_off d p v c :
  appends (midi_event_utils.send_note_off d p v c).
Proof.
  unfold midi_event_utils.send_note_off. appends_tac; apply appends_noteoff.
Qed.

Lemma appends_send_all_notes_off d :
  appends (midi_event_utils.send_all_notes_off d).
Proof. unfold midi_event_utils.send_all_notes_off. appends_tac. Qed.

Lemma calls_only_intro (m : M World unit) :
  appends m -> (forall w, fst (m w) = inr tt) -> calls_only m.
Proof.
  intros Ha Hr w. destruct (Ha w) as [calls E]. exists calls.
  specialize (Hr w). destruct (m w) as [r w']. simpl in *. congruence.
Qed.

Lemma send_note_on_returns d p v c w :
  fst (midi_event_utils.send_note_on d p v c w) = inr tt.
Proof.
  unfold midi_event_utils.send_note_on.
  destruct (negb (truthy d)); [reflexivity | apply try_except_pass_returns].
Qed.

Lemma send_note_off_returns d p v c w :
  fst (midi_event_utils.send_note_off d p v c w) = inr tt.
Proof.
  unfold midi_event_utils.send_note_off.
  destruct (negb (truthy d)); [reflexivity | apply try_except_pass_returns].
Qed.

Lemma send_all_notes_off_returns d w :
  fst (midi_event_utils.send_all_notes_off d w) = inr tt.
Proof.
  unfold midi_event_utils.send_all_notes_off.
  destruct (negb (truthy d)); [reflexivity | apply try_except_pass_returns].
Qed.












(** ** Running the controller's operations symbolically *)

Lemma on_world_calls (m : M World unit) :
  calls_only m -> calls_only_sys (on_world m).
Proof.
  intros H s. destruct (H (world s)) as [calls E].
  eexists. unfold on_world, zoom. rewrite E. simpl. repeat split.
Qed.

Lemma all_off_sys d :
  calls_only_sys (on_world (midi_event_utils.send_all_notes_off d)).
Proof.
  apply on_world_calls, calls_only_intro.
  - apply appends_send_all_notes_off.
  - apply send_all_notes_off_returns.
Qed.

Lemma note_on_sys d p v c :
  calls_only_sys (on_world (midi_event_utils.send_note_on d p v c)).
Proof.
  apply on_world_calls, calls_only_intro.
  - apply appends_send_note_on.
  - apply send_note_on_returns.
Qed.

Lemma note_off_sys d p v c :
  calls_only_sys (on_world (midi_event_utils.send_note_off d p v c)).
Proof.
  apply on_world_calls, calls_only_intro.
  - apply appends_send_note_off.
  - apply send_note_off_returns.
Qed.

Lemma program_change_sys p c k :
  calls_only_sys
    (try_except (on_world (FluidSynthPlayer.program_change p c k))
                (fun _ => ret tt)).
Proof.
  intros s. unfold try_except, on_world, zoom.
  destruct (appends_program_change p c k (world s)) as [calls E].
  destruct (FluidSynthPlayer.program_change p c k (world s)) as [[e | []] w'];
    simpl in E; subst w'; eexists; (split; [reflexivity |]); split; reflexivity.
Qed.

Lemma on_world_time s : on_world time_time s = (inr (clock (world s)), s).
Proof. destruct s. reflexivity. Qed.

Lemma py_div_pos {S : Type} (a b : Q) (s : S) :
  0 < b -> py_div a b s = (inr (a / b), s).
Proof.
  intros H. unfold py_div. destruct (Qeq_bool b 0) eqn:E; [| reflexivity].
  apply Qeq_bool_eq in E. lra.
Qed.

Lemma py_max_Qmax (a b : Q) : py_max a b == Qmax a b.
Proof.
  unfold py_max. destruct (Qle_bool b a) eqn:E.
  - apply Qle_bool_iff in E. symmetry. apply Q.max_l. exact E.
  - symmetry. apply Q.max_r. destruct (Qlt_le_dec a b) as [L | L]; [lra |].
    apply Qle_bool_iff in L. congruence.
Qed.

Ltac unfold_ops :=
  unfold PlaybackController.cleanup, PlaybackController.toggle_playback,
    PlaybackController.is_playing, PlaybackController.set_notes,
    PlaybackController.seek, PlaybackController.play,
    PlaybackController.pause, PlaybackController.set_tempo,
    PlaybackController.stop, PlaybackController._ensure_scheduler,
    PlaybackController.get_current_position;
  unfold NoteScheduler.update_notes, NoteScheduler.reset_playback_position,
    NoteScheduler.start_playback_thread, NoteScheduler.stop_playback_thread,
    NoteScheduler.method, NoteScheduler.store, when;
  unfold bind.

(** Attribute writes to an explicit record are carried out at once, the
    innermost first, so that a state stays an explicit record. *)
Ltac write_attr t :=
  let r0 := eval cbv beta delta
              [set_notes_attr set_is_playing_internal set_paused
               set_current_playback_time_sec set_playback_start_real_time
               set_pause_start_time_sec set_tempo_bpm set_tempo_scale_factor
               set_stop_flag set_is_playing_for_scheduler set_note_scheduler
               set_sched_notes set_cursor set_thread_alive] in t in
  let r := eval cbn [fluidsynth_player notes _is_playing_internal paused
                     current_playback_time_sec playback_start_real_time
                     pause_start_time_sec tempo_bpm tempo_scale_factor
                     stop_flag _is_playing_for_scheduler note_scheduler
                     device_manager sched_notes midi_output_target started
                     active thread_alive] in r0 in
  r.

Ltac is_write f :=
  lazymatch f with
  | set_notes_attr => idtac
  | set_is_playing_internal => idtac
  | set_paused => idtac
  | set_current_playback_time_sec => idtac
  | set_playback_start_real_time => idtac
  | set_pause_start_time_sec => idtac
  | set_tempo_bpm => idtac
  | set_tempo_scale_factor => idtac
  | set_stop_flag => idtac
  | set_is_playing_for_scheduler => idtac
  | set_note_scheduler => idtac
  | set_sched_notes => idtac
  | set_thread_alive => idtac
  end.

Ltac flat_step :=
  match goal with
  | |- context [?f ?v (Build_Controller ?a ?b ?c ?d ?e ?g ?h ?i ?j ?k ?l ?m ?n)] =>
      is_write f;
      let t := constr:(f v (Build_Controller a b c d e g h i j k l m n)) in
      let r := write_attr t in
      progress change t with r
  | |- context [?f ?v (Build_SchedulerState ?a ?b ?c ?d ?e)] =>
      is_write f;
      let t := constr:(f v (Build_SchedulerState a b c d e)) in
      let r := write_attr t in
      progress change t with r
  | |- context [set_cursor ?u ?v (Build_SchedulerState ?a ?b ?c ?d ?e)] =>
      let t := constr:(set_cursor u v (Build_SchedulerState a b c d e)) in
      let r := write_attr t in
      progress change t with r
  | H : context [?f ?v (Build_Controller ?a ?b ?c ?d ?e ?g ?h ?i ?j ?k ?l ?m ?n)] |- _ =>
      is_write f;
      let t := constr:(f v (Build_Controller a b c d e g h i j k l m n)) in
      let r := write_attr t in
      progress change t with r in H
  | H : context [?f ?v (Build_SchedulerState ?a ?b ?c ?d ?e)] |- _ =>
      is_write f;
      let t := constr:(f v (Build_SchedulerState a b c d e)) in
      let r := write_attr t in
      progress change t with r in H
  | H : context [set_cursor ?u ?v (Build_SchedulerState ?a ?b ?c ?d ?e)] |- _ =>
      let t := constr:(set_cursor u v (Build_SchedulerState a b c d e)) in
      let r := write_attr t in
      progress change t with r in H
  end.

Ltac flat := repeat flat_step.

Ltac exec_cbn :=
  cbn [ret raise gets modify self_get self_set fst snd
       world ctrl env clock trace
       fluidsynth_player notes _is_playing_internal paused
       current_playback_time_sec playback_start_real_time
       pause_start_time_sec tempo_bpm tempo_scale_factor stop_flag
       _is_playing_for_scheduler note_scheduler device_manager
       sched_notes midi_output_target started active thread_alive
       NoteScheduler.new andb orb negb target_of truthy] in *.

Ltac exec_simpl := exec_cbn; flat; exec_cbn.

Ltac world_step :=
  match goal with
  | |- context [on_world (midi_event_utils.send_all_notes_off ?d) ?s] =>
      let w := fresh "w" in
      let E := fresh "E" in
      let He := fresh "Henv" in
      let Hc := fresh "Hclock" in
      destruct (all_off_sys d s) as (w & E & He & Hc);
      rewrite E; clear E; cbn [world ctrl] in He, Hc
  | |- context [on_world time_time ?s] => rewrite (on_world_time s)
  | H : 0 < ?b |- context [py_div ?a ?b ?s] => rewrite (py_div_pos a b s H)
  end.

Ltac exec := repeat (exec_simpl; try world_step).

(** Name the attributes of the controller of a state. *)
Ltac open_state s :=
  let w := fresh "w" in
  let player := fresh "player" in
  let ns := fresh "ns" in
  let playing := fresh "playing" in
  let ispaused := fresh "ispaused" in
  let cur := fresh "cur" in
  let anchor := fresh "anchor" in
  let pst := fresh "pst" in
  let bpm := fresh "tempo" in
  let scale := fresh "scale" in
  let stop := fresh "stop" in
  let flag := fresh "flag" in
  let sch := fresh "sch" in
  let dm := fresh "dm" in
  destruct s as [w [player ns playing ispaused cur anchor pst bpm scale
                      stop flag sch dm]].

(** ** [get_current_position] *)

Lemma get_current_position_eq (s : System) :
  PlaybackController.get_current_position s =
  match mode (ctrl s) with
  | Playing =>
      let pos := (clock (world s) - playback_start_real_time (ctrl s))
                 * tempo_scale_factor (ctrl s) in
      (inr pos,
       {| world := world s;
          ctrl := set_current_playback_time_sec pos (ctrl s) |})
  | Paused => (inr (pause_start_time_sec (ctrl s)), s)
  | Stopped => (inr (current_playback_time_sec (ctrl s)), s)
  end.
Proof.
  open_state s. unfold_ops. unfold mode. exec.
  destruct playing, ispaused; exec; reflexivity.
Qed.

(** C9, as the code has it.  [get_current_position] returns the live
    position [(now - anchor) * tempo_scale_factor] while Playing, the pause
    position while Paused and the stored position while Stopped; it never
    raises; while Paused or Stopped it leaves the whole state as it was, and
    while Playing it writes the returned position to
    [current_playback_time_sec] and changes nothing else. *)
Theorem get_current_position_reads (s : System) :
  match mode (ctrl s) with
  | Playing =>
      PlaybackController.get_current_position s =
      (inr ((clock (world s) - playback_start_real_time (ctrl s))
            * tempo_scale_factor (ctrl s)),
       {| world := world s;
          ctrl := set_current_playback_time_sec
                    ((clock (world s) - playback_start_real_time (ctrl s))
                     * tempo_scale_factor (ctrl s)) (ctrl s) |})
  | Paused =>
      PlaybackController.get_current_position s =
      (inr (pause_start_time_sec (ctrl s)), s)
  | Stopped =>
      PlaybackController.get_current_position s =
      (inr (current_playback_time_sec (ctrl s)), s)
  end.
Proof.
  rewrite get_current_position_eq. destruct (mode (ctrl s)); reflexivity.
Qed.

(** ** [set_tempo] with a tempo that is not positive *)

(** C6.  For [bpm <= 0], [set_tempo bpm] returns normally and leaves the
    whole state, the Transport State included, as it was. *)
Theorem set_tempo_rejects_nonpositive (bpm : Q) (s : System) :
  bpm <= 0 -> PlaybackController.set_tempo bpm s = (inr tt, s).
Proof.
  intros H. unfold PlaybackController.set_tempo.
  apply Qle_bool_iff in H. rewrite H. reflexivity.
Qed.

(** ** The invariant of the controller *)

Lemma target_eqb_refl d : target_eqb d d = true.
Proof. destruct d as [|[[] z]| |[]]; cbn; rewrite ?Z.eqb_refl; reflexivity. Qed.

Ltac exec2 :=
  repeat (exec;
          try match goal with
              | H : midi_output_target ?s = _ |- context [midi_output_target ?s] =>
                  rewrite H
              | |- context [target_eqb ?d ?d] => rewrite (target_eqb_refl d)
              end).
Ltac wf_facts :=
  repeat match goal with
         | H : forall x, Some ?a = Some x -> _ |- _ => specialize (H _ eq_refl)
         | H : None = None -> _ |- _ => specialize (H eq_refl)
         | H : Some _ = None -> _ |- _ => clear H
         | H : forall x, None = Some x -> _ |- _ => clear H
         | H : true = true -> _ |- _ => specialize (H eq_refl)
         | H : false = true -> _ |- _ => clear H
         | H : true = true \/ _ -> _ |- _ => specialize (H (or_introl eq_refl))
         | H : _ \/ true = true -> _ |- _ => specialize (H (or_intror eq_refl))
         | H : false = true \/ false = true -> _ |- _ => clear H
         | H : _ /\ _ |- _ => destruct H
         end.

Ltac wf_open H :=
  let Hscale := fresh "Hscale" in
  let Hdm := fresh "Hdm" in
  let Hflag := fresh "Hflag" in
  let Hex := fresh "Hex" in
  let Hfs := fresh "Hfs" in
  let Hstub := fresh "Hstub" in
  let Hrun := fresh "Hrun" in
  let Hsch := fresh "Hsch" in
  destruct H as [Hscale Hdm Hflag Hex Hfs Hstub Hrun Hsch]; exec_simpl.

Ltac wf_close :=
  constructor; exec_simpl; intros;
  repeat match goal with
         | H : Some _ = Some _ |- _ => injection H as H; subst
         | H : _ /\ _ |- _ => destruct H
         | H : _ \/ _ |- _ => destruct H
         end;
  exec_simpl;
  try discriminate; try congruence; auto; try (split; congruence).

(** An operation that returns normally, keeps the invariant, and lets
    neither time pass nor the environment change. *)
Definition ok {A : Type} (m : M System A) : Prop :=
  forall s, wf (ctrl s) ->
    returns (fst (m s)) /\ wf (ctrl (snd (m s))) /\
    clock (world (snd (m s))) = clock (world s) /\
    env (world (snd (m s))) = env (world s).

Ltac ok_start s :=
  intros s Hwf; open_state s; wf_open Hwf; unfold_ops.
Ltac ok_split := split; [exact I | split; [ | split; congruence ]].

Lemma stop_ok : ok PlaybackController.stop.
Proof.
  ok_start s.
  destruct sch as [sc|], player as [p|]; wf_facts; exec; ok_split; wf_close.
Qed.

Lemma get_current_position_ok : ok PlaybackController.get_current_position.
Proof.
  ok_start s.
  destruct playing, ispaused; wf_facts; exec; ok_split; wf_close.
Qed.

Lemma pause_ok : ok PlaybackController.pause.
Proof.
  ok_start s.
  destruct playing, ispaused, player; wf_facts; exec; ok_split; wf_close.
Qed.

Lemma seek_ok t : ok (PlaybackController.seek t).
Proof.
  ok_start s.
  destruct player, sch, playing, ispaused; wf_facts; exec; ok_split; wf_close.
Qed.

Lemma set_notes_ok l : ok (PlaybackController.set_notes l).
Proof.
  ok_start s.
  destruct player, sch; wf_facts; exec; ok_split; wf_close.
Qed.

Lemma play_ok : ok PlaybackController.play.
Proof.
  ok_start s.
  destruct player, ns, sch, playing, ispaused; wf_facts; try discriminate;
    exec2; ok_split; wf_close.
Qed.

Lemma set_tempo_ok bpm : ok (PlaybackController.set_tempo bpm).
Proof.
  ok_start s. destruct (Qle_bool bpm 0) eqn:Hb.
  - exec; ok_split; wf_close.
  - assert (0 < bpm / 120).
    { destruct (Qlt_le_dec 0 bpm) as [L | L].
      - apply Qlt_shift_div_l; lra.
      - apply Qle_bool_iff in L. congruence. }
    destruct playing, ispaused; wf_facts; exec; ok_split; wf_close.
Qed.

Lemma toggle_playback_ok : ok PlaybackController.toggle_playback.
Proof.
  intros s Hwf. unfold PlaybackController.toggle_playback,
    PlaybackController.is_playing, bind, self_get, gets, ret.
  cbn [fst snd].
  destruct (_is_playing_internal (ctrl s) && negb (paused (ctrl s))).
  - now apply pause_ok.
  - now apply play_ok.
Qed.

Lemma set_instrument_ok prog chan : ok (PlaybackController.set_instrument prog chan).
Proof.
  intros s Hwf. unfold PlaybackController.set_instrument, bind, self_get, gets.
  cbn [fst snd].
  destruct (fluidsynth_player (ctrl s)) as [p |]; [destruct (FluidSynthPlayer.fs p) |];
    try (cbn; split; [exact I | split; [assumption | split; reflexivity]]).
  destruct (program_change_sys p chan prog s) as (w' & E & He & Hc).
  rewrite E. cbn. split; [exact I | split; [assumption | split; assumption]].
Qed.

Lemma cleanup_wf s :
  wf (ctrl s) -> wf (ctrl (snd (PlaybackController.cleanup s))).
Proof.
  intros Hwf. destruct (stop_ok s Hwf) as (R & W & _).
  unfold PlaybackController.cleanup, bind, self_get, gets, raise, ret.
  destruct (PlaybackController.stop s) as [[e | []] s']; cbn in *; [easy |].
  destruct (device_manager (ctrl s')); exact W.
Qed.

Lemma init_wf made w : wf (ctrl (PlaybackController.init made w)).
Proof.
  unfold PlaybackController.init.
  destruct made as [e | p]; [| destruct (FluidSynthPlayer.fs p) eqn:F];
    cbn [negb ctrl]; constructor; cbn; intros;
    try discriminate; try lra; try congruence; auto.
  all: try (repeat split; congruence).
  all: intuition discriminate.
Qed.

Lemma for_each_sys {A : Type} (l : list A) (f : A -> M System unit) :
  (forall x, calls_only_sys (f x)) -> calls_only_sys (for_each l f).
Proof.
  intros Hf. induction l as [| x l IH]; intros s.
  - exists (world s). destruct s; cbn. repeat split.
  - cbn [for_each]. unfold bind.
    destruct (Hf x s) as (w1 & E1 & He1 & Hc1). rewrite E1.
    destruct (IH {| world := w1; ctrl := ctrl s |}) as (w2 & E2 & He2 & Hc2).
    rewrite E2. exists w2. cbn in *. repeat split; congruence.
Qed.

Lemma dispatch_due_eq pos s sch :
  note_scheduler (ctrl s) = Some sch ->
  let ons := NoteScheduler.due_on sch pos in
  let s1 := set_cursor (started sch ∪ NoteScheduler.indices ons)
                       (active sch ∪ NoteScheduler.indices ons) sch in
  let offs := NoteScheduler.due_off s1 pos in
  exists w,
    NoteScheduler.dispatch_due pos s =
    (inr (map NoteScheduler.on_event ons ++ map NoteScheduler.off_event offs),
     {| world := w;
        ctrl := set_note_scheduler
                  (Some (set_cursor (started s1)
                           (active s1 ∖ NoteScheduler.indices offs) s1))
                  (ctrl s) |}) /\
    env w = env (world s) /\ clock w = clock (world s).
Proof.
  intros Hs ons s1 offs.
  unfold NoteScheduler.dispatch_due, NoteScheduler.method, NoteScheduler.store.
  unfold bind at 1. unfold self_get, gets. cbn [fst snd]. rewrite Hs.
  unfold bind at 1.
  destruct (for_each_sys ons (NoteScheduler.dispatch_on (midi_output_target sch))
              (fun e => note_on_sys _ _ _ _) s) as (w1 & E1 & He1 & Hc1).
  fold ons. rewrite E1.
  unfold bind at 1. unfold self_set, modify. cbn [fst snd world ctrl].
  unfold bind at 1. fold s1. fold offs.
  match goal with |- context [for_each offs ?f ?st] =>
    destruct (for_each_sys offs f (fun e => note_off_sys _ _ _ _) st) as (w2 & E2 & He2 & Hc2)
  end.
  rewrite E2. unfold bind, ret. cbn [fst snd world ctrl] in *.
  exists w2. split.
  - reflexivity.
  - split; congruence.
Qed.

Lemma wf_set_scheduler c sch sch' :
  wf c -> note_scheduler c = Some sch ->
  midi_output_target sch' = midi_output_target sch ->
  sched_notes sch' = sched_notes sch ->
  wf (set_note_scheduler (Some sch') c).
Proof.
  intros Hwf Hs Ht Hn. destruct c. wf_open Hwf. subst.
  wf_facts. wf_close.
  all: try (split; [apply Hrun; auto | discriminate]).
  all: repeat split; congruence.
Qed.

Lemma get_current_position_scheduler s :
  note_scheduler (ctrl (snd (PlaybackController.get_current_position s))) =
  note_scheduler (ctrl s).
Proof.
  rewrite get_current_position_eq.
  destruct (mode (ctrl s)); reflexivity.
Qed.

Lemma ok_intro {A : Type} (m : M System A) :
  (forall s, wf (ctrl s) ->
     exists a s', m s = (inr a, s') /\ wf (ctrl s') /\
       clock (world s') = clock (world s) /\ env (world s') = env (world s)) ->
  ok m.
Proof.
  intros H s Hwf. destruct (H s Hwf) as (a & s' & E & W & Hc & He).
  rewrite E. cbn. auto.
Qed.

Ltac ok_same := do 2 eexists; split; [reflexivity | auto].

Lemma scheduler_wake_ok : ok scheduler_wake.
Proof.
  apply ok_intro. intros s Hwf.
  unfold scheduler_wake, NoteScheduler.tick, NoteScheduler.method,
    NoteScheduler.store.
  unfold bind at 1. unfold self_get at 1. unfold gets. cbn [fst snd].
  destruct (note_scheduler (ctrl s)) as [sch |] eqn:Hs; [| ok_same].
  unfold bind at 1. unfold self_get at 1. unfold gets. cbn [fst snd]. rewrite Hs.
  destruct (thread_alive sch); cbn [negb]; [| ok_same].
  unfold bind at 1. unfold self_get at 1. unfold gets. cbn [fst snd].
  destruct (stop_flag (ctrl s)).
  { unfold bind, self_set, modify, ret. cbn.
    do 2 eexists. split; [reflexivity |]. cbn. split; [| auto].
    eapply wf_set_scheduler; eauto. }
  unfold bind at 1. unfold self_get at 1. unfold gets. cbn [fst snd].
  destruct (_is_playing_for_scheduler (ctrl s)); cbn [negb]; [| ok_same].
  unfold bind at 1.
  destruct (get_current_position_ok s Hwf) as (R & W & Hc & He).
  pose proof (get_current_position_scheduler s) as Hk.
  destruct (PlaybackController.get_current_position s) as [[e | pos] s1];
    cbn [fst snd] in *; [easy |].
  rewrite Hs in Hk.
  destruct (dispatch_due_eq pos s1 sch Hk) as (w2 & E & He2 & Hc2).
  cbv zeta in E. rewrite E.
  do 2 eexists. split; [reflexivity |]. cbn [world ctrl].
  split; [| split; congruence].
  eapply wf_set_scheduler; eauto.
Qed.

Lemma wait_wf d s : wf (ctrl s) -> wf (ctrl (wait d s)).
Proof. intros H. exact H. Qed.

(** Every reachable state satisfies the invariant. *)
Lemma reachable_wf (s : System) : reachable s -> wf (ctrl s).
Proof.
  induction 1.
  - apply init_wf.
  - assumption.
  - now apply scheduler_wake_ok.
  - now apply set_notes_ok.
  - now apply play_ok.
  - now apply pause_ok.
  - now apply stop_ok.
  - now apply seek_ok.
  - now apply get_current_position_ok.
  - now apply toggle_playback_ok.
  - now apply set_tempo_ok.
  - now apply set_instrument_ok.
  - now apply cleanup_wf.
Qed.

(** ** [seek] *)

Lemma seek_spec (s : System) (t : Q) :
  wf (ctrl s) ->
  exists s',
    PlaybackController.seek t s = (inr tt, s') /\
    clock (world s') = clock (world s) /\
    _is_playing_internal (ctrl s') = _is_playing_internal (ctrl s) /\
    paused (ctrl s') = paused (ctrl s) /\
    tempo_scale_factor (ctrl s') = tempo_scale_factor (ctrl s) /\
    current_playback_time_sec (ctrl s') = py_max 0 t /\
    pause_start_time_sec (ctrl s') = py_max 0 t /\
    (_is_playing_internal (ctrl s) = true ->
     playback_start_real_time (ctrl s') =
     clock (world s) - py_max 0 t / tempo_scale_factor (ctrl s)).
Proof.
  intros Hwf. open_state s. wf_open Hwf. unfold_ops.
  destruct player, sch, playing, ispaused; wf_facts; try discriminate; exec;
    eexists; (split; [reflexivity |]); exec_simpl;
    repeat split; congruence.
Qed.

(** C3.  In every reachable state, whatever the mode, [seek t] returns
    normally, keeps the mode, and a [get_current_position] made right after
    it (before the clock advances) returns [max 0 t]. *)
Theorem seek_then_position (s : System) (t : Q) :
  reachable s ->
  fst (PlaybackController.seek t s) = inr tt /\
  mode (ctrl (snd (PlaybackController.seek t s))) = mode (ctrl s) /\
  exists p,
    fst (PlaybackController.get_current_position
           (snd (PlaybackController.seek t s))) = inr p /\
    p == Qmax 0 t.
Proof.
  intros Hr. pose proof (reachable_wf s Hr) as Hwf.
  destruct (seek_spec s t Hwf) as (s' & E & Hc & Hp & Hq & Hsc & Hcur & Hpst & Ha).
  rewrite E. cbn [fst snd].
  assert (Hm : mode (ctrl s') = mode (ctrl s)).
  { unfold mode. rewrite Hp, Hq. reflexivity. }
  split; [reflexivity | split; [exact Hm |]].
  rewrite get_current_position_eq. rewrite Hm.
  unfold mode. 
  destruct (_is_playing_internal (ctrl s)) eqn:P, (paused (ctrl s)) eqn:U; cbn [andb negb fst].
  - eexists. split; [reflexivity |]. rewrite Hpst. apply py_max_Qmax.
  - eexists. split; [reflexivity |]. rewrite (Ha eq_refl), Hc, Hsc.
    rewrite <- py_max_Qmax. pose proof (wf_scale _ Hwf). field. lra.
  - eexists. split; [reflexivity |]. rewrite Hpst. apply py_max_Qmax.
  - eexists. split; [reflexivity |]. rewrite Hcur. apply py_max_Qmax.
Qed.

(** ** Comparisons *)



(** ** [set_tempo] with a positive tempo *)



(** ** [stop] *)

Lemma stop_spec (s : System) :
  exists w,
    PlaybackController.stop s = (inr tt, {| world := w; ctrl := stopped (ctrl s) |}) /\
    env w = env (world s) /\ clock w = clock (world s).
Proof.
  open_state s. unfold_ops. unfold stopped.
  destruct sch as [sc |], player as [p |]; exec;
    eexists; (split; [reflexivity |]); split; cbn [world]; congruence.
Qed.

Lemma stopped_eq (c : Controller) :
  stopped c =
  {| fluidsynth_player := fluidsynth_player c;
     notes := notes c;
     _is_playing_internal := false;
     paused := false;
     current_playback_time_sec := 0;
     playback_start_real_time := playback_start_real_time c;
     pause_start_time_sec := 0;
     tempo_bpm := tempo_bpm c;
     tempo_scale_factor := tempo_scale_factor c;
     stop_flag := match note_scheduler c with
                  | Some _ => true
                  | None => stop_flag c
                  end;
     _is_playing_for_scheduler := false;
     note_scheduler :=
       match note_scheduler c with
       | Some sch =>
           Some {| sched_notes := sched_notes sch;
                   midi_output_target := midi_output_target sch;
                   started := ∅; active := ∅; thread_alive := false |}
       | None => None
       end;
     device_manager := device_manager c |}.
Proof.
  destruct c as [player ns playing ispaused cur anchor pst bpm scale stop flag
                   [[sn tg st ac al] |] dm];
    unfold stopped; exec_simpl; reflexivity.
Qed.

Lemma stopped_idempotent (c : Controller) : stopped (stopped c) = stopped c.
Proof.
  rewrite (stopped_eq (stopped c)). rewrite (stopped_eq c).
  destruct c as [player ns playing ispaused cur anchor pst bpm scale stop flag
                   [[sn tg st ac al] |] dm];
    exec_cbn; reflexivity.
Qed.

(** C7.  [stop] returns normally, also when called a second time, and the
    second call leaves the controller (mode flags, positions, pause time and
    every other attribute) exactly as the first one left it. *)
Theorem stop_idempotent (s : System) :
  fst (PlaybackController.stop s) = inr tt /\
  fst (PlaybackController.stop (snd (PlaybackController.stop s))) = inr tt /\
  ctrl (snd (PlaybackController.stop (snd (PlaybackController.stop s)))) =
  ctrl (snd (PlaybackController.stop s)).
Proof.
  destruct (stop_spec s) as (w1 & E1 & _).
  rewrite E1. cbn [fst snd].
  destruct (stop_spec {| world := w1; ctrl := stopped (ctrl s) |})
    as (w2 & E2 & _).
  rewrite E2. cbn [fst snd ctrl].
  repeat split. apply stopped_idempotent.
Qed.

(** C8.  In a reachable state where the note list is empty, or the player
    is unavailable, or the controller is already Playing, [play] returns
    normally and leaves the whole state as it was: no Transport State field
    changes, nothing is dispatched, no thread is started. *)
Theorem play_is_noop (s : System) :
  reachable s ->
  notes (ctrl s) = [] \/ fluidsynth_player (ctrl s) = None \/
  mode (ctrl s) = Playing ->
  PlaybackController.play s = (inr tt, s).
Proof.
  intros Hr Hcase. pose proof (reachable_wf s Hr) as Hwf.
  open_state s. wf_open Hwf. unfold mode in Hcase. exec_simpl. unfold_ops.
  destruct player as [p |]; [| reflexivity].
  destruct ns as [| n ns]; [reflexivity |].
  destruct Hcase as [Hc | [Hc | Hc]]; try discriminate.
  destruct playing, ispaused; try discriminate; wf_facts; try discriminate.
  destruct sch as [sc |]; [| tauto].
  wf_facts. destruct sc as [sn tg st ac alive]. exec_simpl. subst sn tg.
  exec2. reflexivity.
Qed.

(** C2, the code at the failing input.  In every reachable state
    [cleanup] raises [AttributeError]: it reads [self.device_manager],
    which no statement assigns. *)
Theorem cleanup_raises (s : System) :
  reachable s -> fst (PlaybackController.cleanup s) = inl AttributeError.
Proof.
  intros Hr. pose proof (reachable_wf s Hr) as Hwf.
  destruct (stop_spec s) as (w & E & _).
  unfold PlaybackController.cleanup, bind. rewrite E.
  pose proof (wf_manager _ Hwf) as Hdm.
  unfold self_get, gets. cbn [fst snd ctrl].
  replace (device_manager (stopped (ctrl s))) with (device_manager (ctrl s)).
  - rewrite Hdm. reflexivity.
  - unfold stopped. destruct (ctrl s) as [? ? ? ? ? ? ? ? ? ? ? [sc |] ?]; reflexivity.
Qed.

(** ** [pause] and resuming

    [pause] sets [paused] before it asks [get_current_position] for "the
    accurate pause time", so the accessor answers with the old
    [pause_start_time_sec], and that is what gets stored. *)

Lemma pause_keeps_stale_time (s : System) :
  reachable s -> mode (ctrl s) = Playing ->
  exists s',
    PlaybackController.pause s = (inr tt, s') /\
    mode (ctrl s') = Paused /\
    pause_start_time_sec (ctrl s') = pause_start_time_sec (ctrl s).
Proof.
  intros Hr Hm. pose proof (reachable_wf s Hr) as Hwf.
  open_state s. wf_open Hwf. unfold mode in *. exec_simpl. unfold_ops.
  destruct playing, ispaused; try discriminate.
  destruct player as [p |]; exec; eexists; (split; [reflexivity |]);
    split; reflexivity.
Qed.

(** C4, the code at the failing input.  Playback started at time 0 has
    reached position 5 at time 5; [pause] there leaves the stale pause time
    0 in place, and [play] one second later resumes from position 0. *)
Theorem pause_resume_jumps_back :
  mode (ctrl playing_at_5) = Playing /\
  (exists p, fst (PlaybackController.get_current_position playing_at_5) = inr p /\ p == 5) /\
  let paused_at_5 := snd (PlaybackController.pause playing_at_5) in
  mode (ctrl paused_at_5) = Paused /\
  (exists p, fst (PlaybackController.get_current_position paused_at_5) = inr p /\ p == 0) /\
  let resumed := snd (PlaybackController.play (wait 1 paused_at_5)) in
  mode (ctrl resumed) = Playing /\
  (exists p, fst (PlaybackController.get_current_position resumed) = inr p /\ p == 0).
Proof.
  split; [vm_compute; reflexivity |].
  split; [eexists; split; [vm_compute; reflexivity | reflexivity] |].
  cbv zeta.
  split; [vm_compute; reflexivity |].
  split; [eexists; split; [vm_compute; reflexivity | reflexivity] |].
  split; [vm_compute; reflexivity |].
  eexists; split; [vm_compute; reflexivity | reflexivity].
Qed.

(** ** The dispatch loop *)

Lemma events_of_app (i : nat) (a b : list Event) :
  events_of i (a ++ b) = events_of i a ++ events_of i b.
Proof. apply List.filter_app. Qed.

Section Enumerate.
Context {A : Type}.
Implicit Types (l : list A) (keep : nat * A -> bool) (g : nat * A -> Event).

Lemma in_combine_seq l (k i : nat) (x : A) :
  In (i, x) (combine (seq k (length l)) l) <->
  (k <= i)%nat /\ nth_error l (i - k) = Some x.
Proof.
  revert k. induction l as [| y l IH]; intros k; cbn [length seq combine].
  - split; [intros [] | intros [_ H]]. destruct (i - k)%nat; discriminate.
  - cbn [In]. rewrite IH. split.
    + intros [E | [Hk Hn]].
      * injection E as -> ->. split; [lia |]. now rewrite Nat.sub_diag.
      * split; [lia |]. replace (i - k)%nat with (S (i - S k)) by lia. exact Hn.
    + intros [Hk Hn]. destruct (Nat.eq_dec i k) as [-> | Hne].
      * left. rewrite Nat.sub_diag in Hn. cbn in Hn. congruence.
      * right. split; [lia |].
        replace (i - k)%nat with (S (i - S k)) in Hn by lia. exact Hn.
Qed.

Lemma in_enumerate l (i : nat) (x : A) :
  In (i, x) (NoteScheduler.enumerate l) <-> nth_error l i = Some x.
Proof.
  unfold NoteScheduler.enumerate. rewrite in_combine_seq.
  rewrite Nat.sub_0_r. split; [tauto | split; [lia | assumption]].
Qed.

Lemma filter_index l (k i : nat) :
  List.filter (fun e : nat * A => Nat.eqb (fst e) i)
    (combine (seq k (length l)) l) =
  if (k <=? i)%nat
  then match nth_error l (i - k) with
       | Some x => [(i, x)]
       | None => []
       end
  else [].
Proof.
  revert k. induction l as [| y l IH]; intros k; cbn [length seq combine List.filter].
  - destruct (k <=? i)%nat; [destruct (i - k)%nat |]; reflexivity.
  - rewrite IH. cbn [fst].
    destruct (Nat.eqb_spec k i) as [-> | Hne].
    + rewrite Nat.leb_refl, Nat.sub_diag. cbn [nth_error].
      destruct (Nat.leb_spec (S i) i); [lia | reflexivity].
    + destruct (Nat.leb_spec k i), (Nat.leb_spec (S k) i); try lia; [| reflexivity].
      replace (i - k)%nat with (S (i - S k)) by lia. reflexivity.
Qed.

Lemma events_of_map_filter (L : list (nat * A)) keep g (i : nat) :
  (forall e, fst (g e) = fst e) ->
  events_of i (map g (List.filter keep L)) =
  map g (List.filter keep
           (List.filter (fun e => Nat.eqb (fst e) i) L)).
Proof.
  intros Hg. unfold events_of. induction L as [| a L IH]; [reflexivity |].
  cbn [List.filter]. destruct (keep a) eqn:K, (Nat.eqb (fst a) i) eqn:E;
    cbn [List.filter map]; rewrite ?Hg, ?K, ?E; cbn [map]; now rewrite ?IH.
Qed.

(** Projecting a selection of the enumerated list to one index. *)
Lemma select_one l (i : nat) (x : A) keep g :
  (forall e, fst (g e) = fst e) ->
  nth_error l i = Some x ->
  events_of i (map g (List.filter keep (NoteScheduler.enumerate l))) =
  if keep (i, x) then [g (i, x)] else [].
Proof.
  intros Hg Hn. rewrite events_of_map_filter by exact Hg.
  unfold NoteScheduler.enumerate. rewrite filter_index.
  cbn [Nat.leb]. rewrite Nat.sub_0_r, Hn. cbn [List.filter].
  destruct (keep (i, x)); reflexivity.
Qed.

Lemma in_indices_iff (l : list A) keep (i : nat) (x : A) :
  nth_error l i = Some x ->
  i ∈ (list_to_set (map fst (List.filter keep (NoteScheduler.enumerate l))) : gset nat) <->
  keep (i, x) = true.
Proof.
  intros Hn. rewrite elem_of_list_to_set, list_elem_of_In, in_map_iff.
  split.
  - intros ([j y] & E & Hin). cbn in E. subst j.
    apply filter_In in Hin as [Hin K].
    apply in_enumerate in Hin. congruence.
  - intros K. exists (i, x). split; [reflexivity |].
    apply filter_In. split; [now apply in_enumerate | exact K].
Qed.
End Enumerate.

Lemma bool_decide_is (P : Prop) `{Decision P} (b : bool) :
  (P <-> b = true) -> bool_decide P = b.
Proof.
  intros H0. destruct b.
  - apply bool_decide_eq_true. tauto.
  - apply bool_decide_eq_false. intros HP. apply H0 in HP. discriminate.
Qed.

Lemma cursor_step_note (sch : SchedulerState) (pos : Q) (i : nat) (n : Note) :
  nth_error (sched_notes sch) i = Some n ->
  let '(sch', evs) := cursor_step sch pos in
  let '(st', ac', devs) := note_step n (is_started i sch) (is_active i sch) pos in
  sched_notes sch' = sched_notes sch /\
  midi_output_target sch' = midi_output_target sch /\
  thread_alive sch' = thread_alive sch /\
  is_started i sch' = st' /\
  is_active i sch' = ac' /\
  events_of i evs = map (fun d => (i, d)) devs.
Proof.
  intros Hn. unfold cursor_step, note_step. cbv zeta.
  cbn [sched_notes midi_output_target thread_alive started active set_cursor].
  set (on := negb (is_started i sch) && NoteScheduler.in_window n pos).
  assert (Hon : i ∈ NoteScheduler.indices (NoteScheduler.due_on sch pos) <-> on = true).
  { unfold NoteScheduler.indices, NoteScheduler.due_on.
    rewrite (in_indices_iff _ _ i n Hn). reflexivity. }
  set (s1 := set_cursor _ _ sch).
  assert (Hac1 : is_active i s1 = is_active i sch || on).
  { unfold is_active, s1. cbn [active set_cursor].
    apply bool_decide_is. rewrite elem_of_union, Hon, orb_true_iff.
    rewrite bool_decide_eq_true. reflexivity. }
  set (off := (is_active i sch || on) && Qle_bool (end_time n) pos).
  assert (Hoff : i ∈ NoteScheduler.indices (NoteScheduler.due_off s1 pos) <-> off = true).
  { unfold NoteScheduler.indices, NoteScheduler.due_off.
    change (sched_notes s1) with (sched_notes sch).
    rewrite (in_indices_iff _ _ i n Hn). cbn [fst snd].
    fold (is_active i s1). rewrite Hac1. reflexivity. }
  repeat split.
  - unfold is_started. cbn [started set_cursor].
    apply bool_decide_is. rewrite elem_of_union, Hon, orb_true_iff.
    fold (is_started i sch). unfold is_started at 1. rewrite bool_decide_eq_true. reflexivity.
  - unfold is_active at 1. cbn [active set_cursor].
    apply bool_decide_is.
    rewrite elem_of_difference, Hoff, andb_true_iff, negb_true_iff.
    rewrite elem_of_union, Hon, orb_true_iff, not_true_iff_false.
    unfold is_active. rewrite bool_decide_eq_true. reflexivity.
  - rewrite events_of_app.
    unfold NoteScheduler.due_on, NoteScheduler.due_off.
    change (sched_notes s1) with (sched_notes sch).
    rewrite (select_one _ i n) by (reflexivity || assumption).
    rewrite (select_one _ i n) by (reflexivity || assumption).
    cbn [fst snd]. fold (is_started i sch) (is_active i s1). rewrite Hac1.
    fold on. fold off. rewrite map_app.
    destruct on, off; reflexivity.
Qed.

Lemma cursor_run_note (ps : list Q) (sch : SchedulerState) (i : nat) (n : Note) :
  nth_error (sched_notes sch) i = Some n ->
  events_of i (concat (cursor_run sch ps)) =
  map (fun d => (i, d)) (note_run n (is_started i sch) (is_active i sch) ps).
Proof.
  revert sch. induction ps as [| p ps IH]; intros sch Hn; [reflexivity |].
  cbn [cursor_run note_run].
  pose proof (cursor_step_note sch p i n Hn) as H.
  destruct (cursor_step sch p) as [sch' evs].
  destruct (note_step n (is_started i sch) (is_active i sch) p)
    as [[st' ac'] devs].
  destruct H as (Hns & _ & _ & Hst & Hac & Hev).
  cbn [concat]. rewrite events_of_app, Hev, map_app.
  rewrite IH by congruence. now rewrite Hst, Hac.
Qed.

Lemma note_run_done (n : Note) (ps : list Q) : note_run n true false ps = [].
Proof. induction ps as [| p ps IH]; [reflexivity | exact IH]. Qed.

Lemma note_run_sounding (n : Note) (ps : list Q) :
  note_run n true true ps =
  if existsb (fun p => Qle_bool (end_time n) p) ps then [note_off_of n] else [].
Proof.
  induction ps as [| p ps IH]; [reflexivity |].
  cbn [note_run note_step existsb negb andb orb].
  destruct (Qle_bool (end_time n) p); cbn [negb andb orb app].
  - now rewrite note_run_done.
  - exact IH.
Qed.

Lemma note_run_fresh (n : Note) (p : Q) (ps : list Q) :
  note_run n false false (p :: ps) =
  if NoteScheduler.in_window n p
  then note_on_of n :: note_run n true true ps
  else note_run n false false ps.
Proof.
  cbn [note_run note_step negb andb orb]. unfold NoteScheduler.in_window.
  destruct (Qle_bool (start_time n) p), (Qle_bool (end_time n) p);
    reflexivity.
Qed.

Lemma note_run_at_most_once (n : Note) (ps : list Q) :
  note_run n false false ps = [] \/
  note_run n false false ps = [note_on_of n] \/
  note_run n false false ps = [note_on_of n; note_off_of n].
Proof.
  induction ps as [| p ps IH]; [now left |].
  rewrite note_run_fresh. destruct (NoteScheduler.in_window n p); [| exact IH].
  rewrite note_run_sounding. destruct (existsb _ ps); auto.
Qed.



Lemma wake_running (s : System) (sch : SchedulerState) :
  running s sch ->
  let pos := (clock (world s) - playback_start_real_time (ctrl s))
             * tempo_scale_factor (ctrl s) in
  exists s',
    scheduler_wake s = (inr (snd (cursor_step sch pos)), s') /\
    running s' (fst (cursor_step sch pos)) /\
    clock (world s') = clock (world s) /\
    playback_start_real_time (ctrl s') = playback_start_real_time (ctrl s) /\
    tempo_scale_factor (ctrl s') = tempo_scale_factor (ctrl s).
Proof.
  intros (Hs & Hal & Hstop & Hflag & Hplay & Hpa) pos.
  unfold scheduler_wake, NoteScheduler.tick, NoteScheduler.method.
  unfold bind at 1. unfold self_get at 1. unfold gets. cbn [fst snd]. rewrite Hs.
  unfold bind at 1. unfold self_get at 1. unfold gets. cbn [fst snd]. rewrite Hs, Hal.
  cbn [negb].
  unfold bind at 1. unfold self_get at 1. unfold gets. cbn [fst snd]. rewrite Hstop.
  unfold bind at 1. unfold self_get at 1. unfold gets. cbn [fst snd]. rewrite Hflag.
  cbn [negb]. unfold bind at 1.
  rewrite get_current_position_eq. unfold mode. rewrite Hplay, Hpa.
  cbn [andb negb]. cbv zeta. fold pos.
  set (s1 := {| world := world s;
                ctrl := set_current_playback_time_sec pos (ctrl s) |}).
  assert (Hs1 : note_scheduler (ctrl s1) = Some sch).
  { unfold s1. cbn [ctrl]. destruct (ctrl s); exact Hs. }
  destruct (dispatch_due_eq pos s1 sch Hs1) as (w & E & He & Hc).
  cbv zeta in E. rewrite E. eexists. split; [reflexivity |].
  unfold running, cursor_step. cbn [fst snd world ctrl].
  destruct s as [w0 c0]. destruct c0. unfold s1 in *.
  cbn in *. subst. repeat split; auto.
Qed.

Lemma run_running (delays : list Q) (s : System) (sch : SchedulerState) :
  running s sch ->
  exists s',
    playback_run delays s =
    (inr (cursor_run sch (virtual_positions s delays)), s').
Proof.
  revert s sch. induction delays as [| d delays IH]; intros s sch Hrun.
  - eexists. reflexivity.
  - cbn [playback_run]. unfold bind at 1. cbn [fst snd].
    assert (Hrun' : running (wait d s) sch) by exact Hrun.
    destruct (wake_running (wait d s) sch Hrun') as (s1 & E & Hr1 & Hc & Ha & Hsc).
    cbv zeta in E. unfold bind at 1. rewrite E.
    destruct (IH s1 _ Hr1) as (s2 & E2).
    unfold bind at 1. rewrite E2. unfold ret. eexists.
    unfold virtual_positions in *. cbn [polled cursor_run].
    rewrite Hc, Ha, Hsc.
    cbn [wait world ctrl advance clock].
    destruct (cursor_step sch _) as [sch' evs]. reflexivity.
Qed.

Lemma set_notes_spec (s : System) (ns : list Note) (p : FluidSynthPlayer.t) :
  wf (ctrl s) -> fluidsynth_player (ctrl s) = Some p ->
  exists s1 sch,
    PlaybackController.set_notes ns s = (inr tt, s1) /\
    wf (ctrl s1) /\
    fluidsynth_player (ctrl s1) = Some p /\
    notes (ctrl s1) = ns /\
    mode (ctrl s1) = Stopped /\
    current_playback_time_sec (ctrl s1) = 0 /\
    note_scheduler (ctrl s1) = Some sch /\
    sched_notes sch = ns /\ midi_output_target sch = TFluid p /\ 
    started sch = ∅ /\ active sch = ∅ /\
    clock (world s1) = clock (world s) /\
    tempo_scale_factor (ctrl s1) = tempo_scale_factor (ctrl s).
Proof.
  intros Hwf Hp.
  destruct (set_notes_ok ns s Hwf) as (_ & Hwf1 & _).
  revert Hwf1. open_state s. wf_open Hwf. subst player. unfold_ops. unfold mode.
  destruct sch as [sc |]; wf_facts; exec; intros Hwf1;
    do 2 eexists; (split; [reflexivity |]); exec_simpl;
    (split; [exact Hwf1 |]); repeat split; exec_simpl; try congruence.
Qed.

Lemma play_spec (s : System) (sch : SchedulerState) :
  wf (ctrl s) -> mode (ctrl s) = Stopped -> notes (ctrl s) <> [] ->
  note_scheduler (ctrl s) = Some sch ->
  exists s2,
    PlaybackController.play s = (inr tt, s2) /\
    running s2 (set_thread_alive true (set_cursor ∅ ∅ sch)) /\
    clock (world s2) = clock (world s) /\
    tempo_scale_factor (ctrl s2) = tempo_scale_factor (ctrl s) /\
    playback_start_real_time (ctrl s2) =
    clock (world s) - current_playback_time_sec (ctrl s) / tempo_scale_factor (ctrl s).
Proof.
  intros Hwf Hm Hns Hs. open_state s. wf_open Hwf. unfold mode in Hm.
  exec_simpl. subst sch0. unfold_ops. unfold running.
  destruct player as [p |]; wf_facts; try discriminate.
  destruct ns as [| n ns]; [congruence |].
  destruct sch as [sn tg st ac al]. exec_simpl. subst sn tg.
  destruct playing, ispaused; try discriminate; wf_facts; try discriminate.
  exec2. eexists. split; [reflexivity |]. exec_simpl. repeat split.
Qed.

Lemma started_run (s : System) (ns : list Note) (delays : list Q) :
  reachable s -> fluidsynth_player (ctrl s) <> None -> ns <> [] ->
  exists s1 s2 s3 sch,
    PlaybackController.set_notes ns s = (inr tt, s1) /\
    PlaybackController.play s1 = (inr tt, s2) /\
    current_playback_time_sec (ctrl s1) = 0 /\
    sched_notes sch = ns /\ started sch = ∅ /\ active sch = ∅ /\
    playback_run delays s2 =
    (inr (cursor_run sch (virtual_positions s2 delays)), s3).
Proof.
  intros Hr Hp Hns. pose proof (reachable_wf s Hr) as Hwf.
  destruct (fluidsynth_player (ctrl s)) as [p |] eqn:Ep; [| congruence].
  destruct (set_notes_spec s ns p Hwf Ep)
    as (s1 & sch & E1 & Hwf1 & Hp1 & Hn1 & Hm1 & Hc1 & Hs1 & Hsn & Htg & Hst
        & Hac & Hck & Hsc).
  assert (Hns1 : notes (ctrl s1) <> []) by congruence.
  destruct (play_spec s1 sch Hwf1 Hm1 Hns1 Hs1) as (s2 & E2 & Hrun & _).
  destruct (run_running delays s2 _ Hrun) as (s3 & E3).
  exists s1, s2, s3, (set_thread_alive true (set_cursor ∅ ∅ sch)).
  repeat split; try assumption.
Qed.


(** In any run after [set_notes] and [play], whatever the wake-ups, a note
    is sent nothing, or one note-on, or one note-on and then one
    note-off. *)
Theorem each_note_at_most_once
  (s : System) (ns : list Note) (delays : list Q) (i : nat) (n : Note) :
  reachable s -> fluidsynth_player (ctrl s) <> None ->
  nth_error ns i = Some n ->
  let s2 := snd (PlaybackController.play
                   (snd (PlaybackController.set_notes ns s))) in
  exists wakes,
    fst (playback_run delays s2) = inr wakes /\
    (events_of i (concat wakes) = [] \/
     events_of i (concat wakes) =
       [(i, NoteOn (channel n) (pitch n) (velocity n))] \/
     events_of i (concat wakes) =
       [(i, NoteOn (channel n) (pitch n) (velocity n));
        (i, NoteOff (channel n) (pitch n))]).
Proof.
  intros Hr Hp Hn s2.
  assert (Hns : ns <> []) by (destruct ns; [destruct i; discriminate | discriminate]).
  destruct (started_run s ns delays Hr Hp Hns)
    as (s1 & s2' & s3 & sch & E1 & E2 & _ & Hsn & Hst & Hac & E3).
  assert (Es : s2 = s2') by (unfold s2; rewrite E1; cbn [snd]; now rewrite E2).
  subst s2'. rewrite E3. cbn [fst]. eexists. split; [reflexivity |].
  rewrite (cursor_run_note _ sch i n) by congruence.
  unfold is_started, is_active. rewrite Hst, Hac.
  rewrite !bool_decide_eq_false_2 by set_solver.
  destruct (note_run_at_most_once n (virtual_positions s2 delays))
    as [E | [E | E]]; rewrite E; cbn; auto.
Qed.

Lemma polled_elapsed (delays : list Q) (now anchor scale acc : Q) :
  now - anchor == acc ->
  Forall2 Qeq (polled now anchor scale delays)
              (map (fun t => t * scale) (elapsed acc delays)).
Proof.
  revert now acc. induction delays as [| d delays IH]; intros now acc H;
    cbn [polled elapsed map]; constructor.
  - rewrite <- H. ring.
  - apply IH. rewrite <- H. ring.
Qed.

Lemma virtual_positions_after_play (s : System) (ns : list Note) (delays : list Q) :
  reachable s -> fluidsynth_player (ctrl s) <> None -> ns <> [] ->
  let s2 := snd (PlaybackController.play
                   (snd (PlaybackController.set_notes ns s))) in
  Forall2 Qeq (virtual_positions s2 delays)
    (map (fun t => t * tempo_scale_factor (ctrl s)) (elapsed 0 delays)).
Proof.
  intros Hr Hp Hns s2. pose proof (reachable_wf s Hr) as Hwf.
  destruct (fluidsynth_player (ctrl s)) as [p |] eqn:Ep; [| congruence].
  destruct (set_notes_spec s ns p Hwf Ep)
    as (s1 & sch & E1 & Hwf1 & Hp1 & Hn1 & Hm1 & Hc1 & Hs1 & Hsn & Htg & Hst
        & Hac & Hck & Hsc).
  assert (Hns1 : notes (ctrl s1) <> []) by congruence.
  destruct (play_spec s1 sch Hwf1 Hm1 Hns1 Hs1) as (s2' & E2 & _ & Hck2 & Hsc2 & Ha).
  assert (Es : s2 = s2') by (unfold s2; rewrite E1; cbn [snd]; now rewrite E2).
  subst s2'. unfold virtual_positions. rewrite Hsc2, Hsc.
  apply polled_elapsed. rewrite Ha, Hck2, Hc1, Hsc.
  pose proof (wf_scale _ Hwf). field. lra.
Qed.


(** ** The claims at concrete inputs *)

(** Reachability of a state built from the constructor by operations. *)
Ltac reach :=
  repeat first
    [ apply reach_init
    | apply reach_wait; [discriminate |]
    | apply reach_play
    | apply reach_set_notes
    | apply reach_pause
    | apply reach_seek ].

Lemma playing_at_5_reachable : reachable playing_at_5.
Proof. unfold playing_at_5, playing_from_0, fresh. reach. Qed.

(** C9 does not hold as stated: while Playing, [get_current_position]
    changes the controller; it writes the position it returns to
    [current_playback_time_sec]. *)
Lemma get_current_position_writes :
  reachable playing_at_5 /\
  mode (ctrl playing_at_5) = Playing /\
  current_playback_time_sec (ctrl playing_at_5) == 0 /\
  current_playback_time_sec
    (ctrl (snd (PlaybackController.get_current_position playing_at_5))) == 5 /\
  ctrl (snd (PlaybackController.get_current_position playing_at_5)) <>
  ctrl playing_at_5.
Proof.
  split; [exact playing_at_5_reachable |].
  split; [vm_compute; reflexivity |].
  split; [vm_compute; reflexivity |].
  split; [vm_compute; reflexivity |].
  intros H. apply (f_equal current_playback_time_sec) in H.
  vm_compute in H. discriminate H.
Qed.


Lemma seek_then_position_witness :
  fst (PlaybackController.seek (7 # 2) playing_at_5) = inr tt /\
  mode (ctrl (snd (PlaybackController.seek (7 # 2) playing_at_5))) =
  mode (ctrl playing_at_5) /\
  exists p,
    fst (PlaybackController.get_current_position
           (snd (PlaybackController.seek (7 # 2) playing_at_5))) = inr p /\
    p == Qmax 0 (7 # 2).
Proof.
  apply (seek_then_position playing_at_5 (7 # 2)).
  unfold playing_at_5, playing_from_0, fresh. reach.
Defined.


Lemma set_tempo_rejects_nonpositive_witness :
  PlaybackController.set_tempo (-1) playing_at_5 = (inr tt, playing_at_5).
Proof.
  apply (set_tempo_rejects_nonpositive (-1) playing_at_5). discriminate.
Defined.

Lemma play_is_noop_witness :
  PlaybackController.play playing_at_5 = (inr tt, playing_at_5).
Proof.
  apply (play_is_noop playing_at_5).
  - unfold playing_at_5, playing_from_0, fresh. reach.
  - right. right. vm_compute. reflexivity.
Defined.

Lemma cleanup_raises_witness :
  fst (PlaybackController.cleanup fresh) = inl AttributeError.
Proof.
  apply (cleanup_raises fresh). unfold fresh. reach.
Defined.

(** ** What the dispatch helpers and the operations send, and the
       state they leave *)

Ltac reach' :=
  repeat first
    [ apply reach_init
    | apply reach_wait; [discriminate |]
    | apply reach_play
    | apply reach_set_notes
    | apply reach_pause
    | apply reach_seek ].

Lemma with_calls_nil (w : World) : with_calls w [] = w.
Proof. destruct w. unfold with_calls. cbn. now rewrite app_nil_r. Qed.

Lemma with_calls_app (w : World) (a b : list Call) :
  with_calls (with_calls w a) b = with_calls w (a ++ b).
Proof. unfold with_calls. cbn. now rewrite app_assoc. Qed.

(** A loop of backend calls. *)
Lemma for_each_extern {A : Type} (f : A -> Call) (xs : list A) (w : World) :
  for_each xs (fun x => extern (f x)) w =
  (if some_raises (backend_raises (env w)) (trace w) (map f xs)
   then inl BackendError else inr tt,
   with_calls w (attempted (backend_raises (env w)) (trace w) (map f xs))).
Proof.
  revert w. induction xs as [| x xs IH]; intros w.
  - cbn. now rewrite with_calls_nil.
  - cbn [for_each map attempted some_raises]. unfold bind, extern.
    destruct (backend_raises (env w) (trace w) (f x)) eqn:R; cbn [orb].
    + reflexivity.
    + rewrite IH. cbn [record_call env trace clock]. 
      unfold with_calls. cbn. rewrite <- app_assoc. reflexivity.
Qed.


Lemma all_off_fluid_eq (p : FluidSynthPlayer.t) (w : World) :
  FluidSynthPlayer.fs p = true ->
  midi_event_utils.send_all_notes_off (TFluid p) w =
  (inr tt,
   with_calls w
     (attempted (backend_raises (env w)) (trace w)
        (map (fun ch => fs_cc ch 123 0) range16))).
Proof.
  intros F. unfold midi_event_utils.send_all_notes_off, try_except.
  cbn [truthy negb]. rewrite F, for_each_extern.
  destruct (some_raises _ _ _); reflexivity.
Qed.

Lemma all_off_pygame_eq (w : World) :
  midi_event_utils.send_all_notes_off TPygame w =
  (inr tt,
   with_calls w
     (attempted (backend_raises (env w)) (trace w)
        (map (fun ch => pg_write_short (176 + ch) 123 0) range16))).
Proof.
  unfold midi_event_utils.send_all_notes_off, try_except.
  cbn [truthy negb]. rewrite for_each_extern.
  destruct (some_raises _ _ _); reflexivity.
Qed.


Lemma attempted_quiet (raises : list Call -> Call -> bool) (cs tr : list Call) :
  (forall t c, raises t c = false) -> attempted raises tr cs = cs.
Proof.
  intros H. revert tr. induction cs as [| c cs IH]; intros tr; [reflexivity |].
  cbn. rewrite H. now rewrite IH.
Qed.

Lemma attempted_prefix (raises : list Call -> Call -> bool) (cs tr : list Call) :
  exists rest, cs = attempted raises tr cs ++ rest.
Proof.
  revert tr. induction cs as [| c cs IH]; intros tr.
  - exists []. reflexivity.
  - cbn. destruct (raises tr c).
    + exists cs. reflexivity.
    + destruct (IH (tr ++ [c])) as [rest E]. exists rest. cbn. now rewrite <- E.
Qed.

(** X4. On a backend that does not raise, [send_all_notes_off] on a target that
    reaches the backend sends exactly sixteen messages, one per channel. *)
Theorem send_all_notes_off_quiet (d : Target) (w : World) :
  (forall t c, backend_raises (env w) t c = false) ->
  reaches_backend d = true ->
  midi_event_utils.send_all_notes_off d w =
  (inr tt, with_calls w (all_notes_off_calls d)) /\
  length (all_notes_off_calls d) = 16%nat.
Proof.
  intros H R. destruct d as [| p | | b]; cbn in R; try discriminate.
  - rewrite (all_off_fluid_eq p w R), attempted_quiet by exact H.
    unfold all_notes_off_calls. rewrite R. split; reflexivity.
  - rewrite all_off_pygame_eq, attempted_quiet by exact H.
    split; reflexivity.
Qed.

Lemma send_all_notes_off_quiet_witness :
  midi_event_utils.send_all_notes_off (TFluid fluid) world0 =
  (inr tt, with_calls world0 (all_notes_off_calls (TFluid fluid))) /\
  length (all_notes_off_calls (TFluid fluid)) = 16%nat.
Proof.
  apply (send_all_notes_off_quiet (TFluid fluid) world0); reflexivity.
Defined.


Lemma try_extern (c : Call) (w : World) :
  try_except (extern c) (fun _ => ret tt) w = (inr tt, with_calls w [c]).
Proof.
  unfold try_except, extern. destruct (backend_raises _ _ _); reflexivity.
Qed.









(** X20. [pause] does something only while Playing: in the modes Stopped and Paused
    it returns with the whole state unchanged and sends nothing. *)
Theorem pause_only_while_playing (s : System) :
  mode (ctrl s) <> Playing -> PlaybackController.pause s = (inr tt, s).
Proof.
  intros H. unfold PlaybackController.pause, bind, self_get, gets. cbn [fst snd].
  unfold mode in H.
  destruct (_is_playing_internal (ctrl s) && negb (paused (ctrl s)));
    [now destruct H | reflexivity].
Qed.

Lemma pause_only_while_playing_witness :
  PlaybackController.pause loaded = (inr tt, loaded).
Proof.
  apply (pause_only_while_playing loaded). vm_compute. discriminate.
Defined.

(** X16. A controller whose synthesizer failed to initialise never reaches the
    backend: no operation sends a message or advances the clock, and [play],
    [pause], [toggle_playback] and [set_instrument] leave the whole state
    unchanged. *)
Theorem without_player_nothing_is_sent (s : System) :
  reachable s -> fluidsynth_player (ctrl s) = None ->
  (forall ns, world (snd (PlaybackController.set_notes ns s)) = world s) /\
  PlaybackController.play s = (inr tt, s) /\
  PlaybackController.pause s = (inr tt, s) /\
  world (snd (PlaybackController.stop s)) = world s /\
  (forall t, world (snd (PlaybackController.seek t s)) = world s) /\
  (forall bpm, world (snd (PlaybackController.set_tempo bpm s)) = world s) /\
  PlaybackController.toggle_playback s = (inr tt, s) /\
  (forall prog chan,
     PlaybackController.set_instrument prog chan s = (inr tt, s)) /\
  world (snd (PlaybackController.cleanup s)) = world s.
Proof.
  intros Hr Hp. pose proof (reachable_wf s Hr) as Hwf.
  open_state s. wf_open Hwf. subst player. wf_facts. subst.
  repeat split; intros; unfold_ops; exec; try reflexivity.
  - destruct (Qle_bool bpm 0); exec; reflexivity.
Qed.

Lemma without_player_nothing_is_sent_witness :
  (forall ns, world (snd (PlaybackController.set_notes ns stub)) = world stub) /\
  PlaybackController.play stub = (inr tt, stub) /\
  PlaybackController.pause stub = (inr tt, stub) /\
  world (snd (PlaybackController.stop stub)) = world stub /\
  (forall t, world (snd (PlaybackController.seek t stub)) = world stub) /\
  (forall bpm, world (snd (PlaybackController.set_tempo bpm stub)) = world stub) /\
  PlaybackController.toggle_playback stub = (inr tt, stub) /\
  (forall prog chan,
     PlaybackController.set_instrument prog chan stub = (inr tt, stub)) /\
  world (snd (PlaybackController.cleanup stub)) = world stub.
Proof.
  apply (without_player_nothing_is_sent stub).
  - unfold stub. reach'.
  - reflexivity.
Defined.

(** X17. [set_notes] leaves the controller Stopped at position 0 with the new note
    list installed, whatever the mode it was called in; the tempo is kept. *)
Theorem set_notes_resets (s : System) (ns : list Note) :
  reachable s ->
  mode (ctrl (snd (PlaybackController.set_notes ns s))) = Stopped /\
  notes (ctrl (snd (PlaybackController.set_notes ns s))) = ns /\
  current_playback_time_sec (ctrl (snd (PlaybackController.set_notes ns s))) = 0 /\
  pause_start_time_sec (ctrl (snd (PlaybackController.set_notes ns s))) = 0 /\
  fst (PlaybackController.get_current_position
         (snd (PlaybackController.set_notes ns s))) = inr 0 /\
  tempo_bpm (ctrl (snd (PlaybackController.set_notes ns s))) = tempo_bpm (ctrl s).
Proof.
  intros Hr. pose proof (reachable_wf s Hr) as Hwf.
  assert (H : exists s', PlaybackController.set_notes ns s = (inr tt, s') /\
            _is_playing_internal (ctrl s') = false /\ paused (ctrl s') = false /\
            notes (ctrl s') = ns /\ current_playback_time_sec (ctrl s') = 0 /\
            pause_start_time_sec (ctrl s') = 0 /\
            tempo_bpm (ctrl s') = tempo_bpm (ctrl s)).
  { open_state s. wf_open Hwf. unfold_ops.
    destruct player, sch; wf_facts; exec; eexists; (split; [reflexivity |]);
      exec_simpl; repeat split. }
  destruct H as (s' & E & Hp & Hq & Hn & Hc & Hpst & Ht). rewrite E. cbn [snd].
  assert (Hm : mode (ctrl s') = Stopped) by (unfold mode; now rewrite Hp, Hq).
  repeat split; try assumption.
  rewrite get_current_position_eq, Hm. cbn [fst]. now rewrite Hc.
Qed.

Lemma set_notes_resets_witness :
  mode (ctrl (snd (PlaybackController.set_notes [note_c4] playing_at_5))) = Stopped /\
  notes (ctrl (snd (PlaybackController.set_notes [note_c4] playing_at_5))) = [note_c4] /\
  current_playback_time_sec
    (ctrl (snd (PlaybackController.set_notes [note_c4] playing_at_5))) = 0 /\
  pause_start_time_sec
    (ctrl (snd (PlaybackController.set_notes [note_c4] playing_at_5))) = 0 /\
  fst (PlaybackController.get_current_position
         (snd (PlaybackController.set_notes [note_c4] playing_at_5))) = inr 0 /\
  tempo_bpm (ctrl (snd (PlaybackController.set_notes [note_c4] playing_at_5)))
  = tempo_bpm (ctrl playing_at_5).
Proof.
  apply (set_notes_resets playing_at_5 [note_c4]).
  unfold playing_at_5, playing_from_0, fresh. reach'.
Defined.

(** X18. [stop] returns normally in every state (reachable or not), leaves the
    controller Stopped with position and pause position 0, keeps the note
    list and the tempo, and takes no time. *)
Theorem stop_resets (s : System) :
  fst (PlaybackController.stop s) = inr tt /\
  mode (ctrl (snd (PlaybackController.stop s))) = Stopped /\
  fst (PlaybackController.get_current_position
         (snd (PlaybackController.stop s))) = inr 0 /\
  pause_start_time_sec (ctrl (snd (PlaybackController.stop s))) = 0 /\
  notes (ctrl (snd (PlaybackController.stop s))) = notes (ctrl s) /\
  tempo_bpm (ctrl (snd (PlaybackController.stop s))) = tempo_bpm (ctrl s) /\
  tempo_scale_factor (ctrl (snd (PlaybackController.stop s)))
  = tempo_scale_factor (ctrl s) /\
  clock (world (snd (PlaybackController.stop s))) = clock (world s).
Proof.
  destruct (stop_spec s) as (w & E & _ & Hc). rewrite E. cbn [fst snd].
  rewrite get_current_position_eq. cbn [ctrl world]. rewrite stopped_eq.
  unfold mode. cbn. repeat split. exact Hc.
Qed.

(** X19. [cleanup] has run [stop] before anything else: whatever its outcome the
    controller is left Stopped at position 0 with its note list kept. *)
Theorem cleanup_stops_first (s : System) :
  mode (ctrl (snd (PlaybackController.cleanup s))) = Stopped /\
  current_playback_time_sec (ctrl (snd (PlaybackController.cleanup s))) = 0 /\
  notes (ctrl (snd (PlaybackController.cleanup s))) = notes (ctrl s).
Proof.
  destruct (stop_spec s) as (w & E & _ & _).
  unfold PlaybackController.cleanup, bind. rewrite E.
  unfold self_get, gets, raise, ret. cbn [fst snd ctrl].
  destruct (device_manager (stopped (ctrl s))); cbn [snd ctrl];
    rewrite stopped_eq; unfold mode; cbn; repeat split.
Qed.

(** X22. While Playing the reported position advances with the wall clock at the
    rate [tempo_scale_factor]: read [d] seconds later it is larger by
    [d * tempo_scale_factor], so it never decreases. *)
Theorem position_advances_with_time (s : System) (d : Q) :
  reachable s -> mode (ctrl s) = Playing ->
  exists p q,
    fst (PlaybackController.get_current_position s) = inr p /\
    fst (PlaybackController.get_current_position (wait d s)) = inr q /\
    q == p + d * tempo_scale_factor (ctrl s) /\
    (0 <= d -> p <= q).
Proof.
  intros Hr Hm. pose proof (wf_scale _ (reachable_wf s Hr)) as Hs.
  rewrite !get_current_position_eq.
  change (mode (ctrl (wait d s))) with (mode (ctrl s)). rewrite Hm.
  do 2 eexists. split; [reflexivity |]. split; [reflexivity |].
  cbn [wait world ctrl advance clock].
  split; [ring |]. intros Hd. nra.
Qed.

Lemma position_advances_with_time_witness :
  exists p q,
    fst (PlaybackController.get_current_position playing_at_5) = inr p /\
    fst (PlaybackController.get_current_position (wait 2 playing_at_5)) = inr q /\
    q == p + 2 * tempo_scale_factor (ctrl playing_at_5) /\
    (0 <= 2 -> p <= q).
Proof.
  apply (position_advances_with_time playing_at_5 2).
  - unfold playing_at_5, playing_from_0, fresh. reach'.
  - vm_compute. reflexivity.
Defined.

(** What [play] does when it does start or resume. *)
Lemma play_effect (s : System) :
  wf (ctrl s) -> fluidsynth_player (ctrl s) <> None -> notes (ctrl s) <> [] ->
  mode (ctrl s) <> Playing ->
  exists s',
    PlaybackController.play s = (inr tt, s') /\
    mode (ctrl s') = Playing /\
    clock (world s') = clock (world s) /\
    tempo_scale_factor (ctrl s') = tempo_scale_factor (ctrl s) /\
    playback_start_real_time (ctrl s') =
    clock (world s)
    - (if paused (ctrl s) then pause_start_time_sec (ctrl s)
       else current_playback_time_sec (ctrl s)) / tempo_scale_factor (ctrl s).
Proof.
  intros Hwf Hp Hn Hm. open_state s. wf_open Hwf. unfold mode in *.
  exec_simpl. unfold_ops.
  destruct player as [p |]; [| congruence].
  destruct ns as [| n ns]; [congruence |].
  destruct playing, ispaused; cbn in Hm; try congruence; wf_facts;
    try discriminate;
    destruct sch as [[sn tg st ac al] |]; wf_facts; exec_simpl; subst;
    try congruence; exec2; eexists; (split; [reflexivity |]); exec_simpl;
    repeat split.
Qed.

Lemma position_after_play (s : System) :
  wf (ctrl s) -> fluidsynth_player (ctrl s) <> None -> notes (ctrl s) <> [] ->
  mode (ctrl s) <> Playing ->
  forall d, exists q,
    fst (PlaybackController.get_current_position
           (wait d (snd (PlaybackController.play s)))) = inr q /\
    q == (if paused (ctrl s) then pause_start_time_sec (ctrl s)
          else current_playback_time_sec (ctrl s))
         + d * tempo_scale_factor (ctrl s).
Proof.
  intros Hwf Hp Hn Hm d.
  destruct (play_effect s Hwf Hp Hn Hm) as (s' & E & Hm' & Hc & Hsc & Ha).
  rewrite E. cbn [snd]. rewrite get_current_position_eq.
  change (mode (ctrl (wait d s'))) with (mode (ctrl s')). rewrite Hm'.
  eexists. split; [reflexivity |].
  cbn [wait world ctrl advance clock]. rewrite Ha, Hc, Hsc.
  pose proof (wf_scale _ Hwf). field. lra.
Qed.

(** X23. [play] from Stopped starts at the stored position: the controller is
    Playing, and [d] seconds later the position is the stored one plus
    [d * tempo_scale_factor]. *)
Theorem play_starts_at_stored_position (s : System) (d : Q) :
  reachable s -> fluidsynth_player (ctrl s) <> None -> notes (ctrl s) <> [] ->
  mode (ctrl s) = Stopped ->
  mode (ctrl (snd (PlaybackController.play s))) = Playing /\
  exists q,
    fst (PlaybackController.get_current_position
           (wait d (snd (PlaybackController.play s)))) = inr q /\
    q == current_playback_time_sec (ctrl s) + d * tempo_scale_factor (ctrl s).
Proof.
  intros Hr Hp Hn Hm. pose proof (reachable_wf s Hr) as Hwf.
  assert (Hm' : mode (ctrl s) <> Playing) by congruence.
  split.
  - destruct (play_effect s Hwf Hp Hn Hm') as (s' & E & Hpl & _).
    now rewrite E.
  - destruct (position_after_play s Hwf Hp Hn Hm' d) as (q & E & Hq).
    exists q. split; [exact E |]. rewrite Hq.
    unfold mode in Hm.
    destruct (_is_playing_internal (ctrl s)), (paused (ctrl s)); cbn in Hm;
      try discriminate; reflexivity.
Qed.

Lemma play_starts_at_stored_position_witness :
  mode (ctrl (snd (PlaybackController.play loaded))) = Playing /\
  exists q,
    fst (PlaybackController.get_current_position
           (wait 3 (snd (PlaybackController.play loaded)))) = inr q /\
    q == current_playback_time_sec (ctrl loaded)
         + 3 * tempo_scale_factor (ctrl loaded).
Proof.
  apply (play_starts_at_stored_position loaded 3).
  - unfold loaded, fresh. reach'.
  - vm_compute. discriminate.
  - vm_compute. discriminate.
  - vm_compute. reflexivity.
Defined.

Lemma seek_frame (s : System) (t : Q) :
  notes (ctrl (snd (PlaybackController.seek t s))) = notes (ctrl s) /\
  fluidsynth_player (ctrl (snd (PlaybackController.seek t s)))
  = fluidsynth_player (ctrl s).
Proof.
  open_state s. unfold_ops.
  destruct player as [p |]; exec; [| split; reflexivity].
  destruct sch as [[sn tg st ac al] |]; exec;
    try (destruct (Qeq_bool scale 0) eqn:Z; unfold py_div; rewrite Z);
    exec; try (split; reflexivity);
    destruct playing, ispaused; exec; split; reflexivity.
Qed.

(** X24. [seek(t)] followed by [play], from Stopped or Paused: the controller is
    Playing and [d] seconds later the position is [max(0, t)] plus
    [d * tempo_scale_factor]; a pause position older than the seek is not
    resumed. *)
Theorem seek_then_play (s : System) (t d : Q) :
  reachable s -> fluidsynth_player (ctrl s) <> None -> notes (ctrl s) <> [] ->
  mode (ctrl s) <> Playing ->
  let s1 := snd (PlaybackController.seek t s) in
  mode (ctrl (snd (PlaybackController.play s1))) = Playing /\
  exists q,
    fst (PlaybackController.get_current_position
           (wait d (snd (PlaybackController.play s1)))) = inr q /\
    q == Qmax 0 t + d * tempo_scale_factor (ctrl s).
Proof.
  intros Hr Hp Hn Hm s1. pose proof (reachable_wf s Hr) as Hwf.
  destruct (seek_ok t s Hwf) as (_ & Hwf1 & _).
  destruct (seek_spec s t Hwf) as (s1' & E & Hc & Hpl & Hpa & Hsc & Hcur & Hpst & _).
  destruct (seek_frame s t) as [Hn1 Hp1].
  fold s1 in Hwf1, Hn1, Hp1.
  assert (Es : s1 = s1') by (unfold s1; now rewrite E). subst s1'.
  assert (Hm1 : mode (ctrl s1) <> Playing).
  { unfold mode in *. now rewrite Hpl, Hpa. }
  assert (Hp1' : fluidsynth_player (ctrl s1) <> None) by congruence.
  assert (Hn1' : notes (ctrl s1) <> []) by congruence.
  split.
  - destruct (play_effect s1 Hwf1 Hp1' Hn1' Hm1) as (s2 & E2 & Hpl2 & _).
    now rewrite E2.
  - destruct (position_after_play s1 Hwf1 Hp1' Hn1' Hm1 d) as (q & Eq & Hq).
    exists q. split; [exact Eq |].
    rewrite Hq, Hcur, Hpst, Hsc. rewrite <- py_max_Qmax.
    destruct (paused (ctrl s1)); ring.
Qed.

Lemma seek_then_play_witness :
  mode (ctrl (snd (PlaybackController.play
                     (snd (PlaybackController.seek (7 # 2) loaded))))) = Playing /\
  exists q,
    fst (PlaybackController.get_current_position
           (wait 1 (snd (PlaybackController.play
                           (snd (PlaybackController.seek (7 # 2) loaded))))))
    = inr q /\
    q == Qmax 0 (7 # 2) + 1 * tempo_scale_factor (ctrl loaded).
Proof.
  apply (seek_then_play loaded (7 # 2) 1).
  - unfold loaded, fresh. reach'.
  - vm_compute. discriminate.
  - vm_compute. discriminate.
  - vm_compute. discriminate.
Defined.

(** X25. With a player and a non-empty note list, [toggle_playback] pauses a
    Playing controller and sets a Stopped or Paused one Playing. *)
Theorem toggle_playback_flips (s : System) :
  reachable s -> fluidsynth_player (ctrl s) <> None -> notes (ctrl s) <> [] ->
  mode (ctrl (snd (PlaybackController.toggle_playback s))) =
  match mode (ctrl s) with
  | Playing => Paused
  | _ => Playing
  end.
Proof.
  intros Hr Hp Hn. pose proof (reachable_wf s Hr) as Hwf.
  unfold PlaybackController.toggle_playback, PlaybackController.is_playing,
    bind, self_get, gets, ret. cbn [fst snd].
  destruct (_is_playing_internal (ctrl s) && negb (paused (ctrl s))) eqn:B.
  - assert (Hm : mode (ctrl s) = Playing) by (unfold mode; now rewrite B).
    destruct (pause_keeps_stale_time s Hr Hm) as (s' & E & Hpa & _).
    rewrite E, Hm. exact Hpa.
  - assert (Hm : mode (ctrl s) <> Playing).
    { unfold mode. rewrite B. now destruct (paused (ctrl s)). }
    destruct (play_effect s Hwf Hp Hn Hm) as (s' & E & Hpl & _).
    rewrite E. cbn [snd]. rewrite Hpl.
    destruct (mode (ctrl s)); [reflexivity | congruence | reflexivity].
Qed.

Lemma toggle_playback_flips_witness :
  mode (ctrl (snd (PlaybackController.toggle_playback playing_at_5))) =
  match mode (ctrl playing_at_5) with
  | Playing => Paused
  | _ => Playing
  end.
Proof.
  apply (toggle_playback_flips playing_at_5).
  - unfold playing_at_5, playing_from_0, fresh. reach'.
  - vm_compute. discriminate.
  - vm_compute. discriminate.
Defined.



(** X21. [pause] while Playing leaves the controller Paused and sends all-notes-off
    (controller 123, value 0) to the channels 0 to 15 of the player, up to
    the first call that raises, and nothing else. *)
Theorem pause_silences (s : System) (p : FluidSynthPlayer.t) :
  reachable s -> mode (ctrl s) = Playing ->
  fluidsynth_player (ctrl s) = Some p ->
  mode (ctrl (snd (PlaybackController.pause s))) = Paused /\
  world (snd (PlaybackController.pause s)) =
  with_calls (world s)
    (attempted (backend_raises (env (world s))) (trace (world s))
       (map (fun ch => fs_cc ch 123 0) range16)).
Proof.
  intros Hr Hm Hp. pose proof (reachable_wf s Hr) as Hwf.
  open_state s. wf_open Hwf. unfold mode in Hm. exec_simpl. subst player.
  wf_facts.
  destruct playing, ispaused; try discriminate.
  unfold PlaybackController.pause, PlaybackController.get_current_position.
  unfold bind. do 3 exec_simpl. unfold on_world, zoom. cbn [world ctrl].
  rewrite (all_off_fluid_eq p _ Hfs).
  exec_simpl. split; reflexivity.
Qed.

Lemma pause_silences_witness :
  mode (ctrl (snd (PlaybackController.pause playing_at_5))) = Paused /\
  world (snd (PlaybackController.pause playing_at_5)) =
  with_calls (world playing_at_5)
    (attempted (backend_raises (env (world playing_at_5)))
       (trace (world playing_at_5))
       (map (fun ch => fs_cc ch 123 0) range16)).
Proof.
  apply (pause_silences playing_at_5 fluid).
  - unfold playing_at_5, playing_from_0, fresh. reach'.
  - vm_compute. reflexivity.
  - vm_compute. reflexivity.
Defined.

(** X12. The constructor keeps the player only if its synthesizer came up
    ([fs] set); it then selects program 0 (the default instrument) on channel
    0 and otherwise sends nothing; the new controller is Stopped at position
    0 with no notes, tempo 120 and scale factor 1. *)
Theorem init_state (made : Exn + FluidSynthPlayer.t) (w : World) :
  let s := PlaybackController.init made w in
  fluidsynth_player (ctrl s) =
    match made with
    | inr p => if FluidSynthPlayer.fs p then Some p else None
    | inl _ => None
    end /\
  world s =
    with_calls w (program_select_calls (fluidsynth_player (ctrl s)) 0 0) /\
  mode (ctrl s) = Stopped /\
  notes (ctrl s) = [] /\
  tempo_bpm (ctrl s) = 120 /\
  tempo_scale_factor (ctrl s) = 1 /\
  fst (PlaybackController.get_current_position s) = inr 0.
Proof.
  cbv zeta. unfold PlaybackController.init.
  destruct made as [e | p]; cbn [negb ctrl world].
  - repeat split. cbn. now rewrite with_calls_nil.
  - destruct (FluidSynthPlayer.fs p) eqn:F; cbn [negb ctrl world fluidsynth_player].
    + repeat split. unfold program_select_calls, FluidSynthPlayer.program_change.
      rewrite F. cbn [negb orb andb dict_get INSTRUMENT_MAPPINGS String.eqb].
      destruct (Z.eqb (FluidSynthPlayer.sfid p) (-1)); cbn [negb].
      * cbn. now rewrite with_calls_nil.
      * unfold try_except at 1. rewrite try_extern. reflexivity.
    + repeat split. cbn. now rewrite with_calls_nil.
Qed.














(** ** The life cycle of a [FluidSynthPlayer] object *)

Section Lifecycle.
Import FluidSynthObject.

Lemma call_quiet (c : HostCall) (st : St) :
  quiet_host (host st) -> call c st = (inr tt, logged st [c] (self st)).
Proof. intros H. unfold call. now rewrite H. Qed.

Lemma loop_quiet (f : Z -> HostCall) (l : list Z) (st : St) :
  quiet_host (host st) ->
  for_each l (fun i => call (f i)) st = (inr tt, logged st (map f l) (self st)).
Proof.
  revert st. induction l as [| i l IH]; intros st H.
  - cbn. unfold logged. rewrite app_nil_r. now destruct st.
  - cbn [for_each map]. unfold bind. rewrite call_quiet by exact H.
    rewrite IH by exact H. unfold logged. cbn. now rewrite <- app_assoc.
Qed.

Ltac life_step Hq :=
  first
    [ rewrite call_quiet by exact Hq
    | rewrite loop_quiet by exact Hq
    | progress cbn [fst snd host calls self logged fs sfid soundfont_path
                    set_fs set_sfid set_soundfont_path negb] ].

(** X6. Construction of a [FluidSynthPlayer] when no library call raises: the
    synthesizer is created; the sound font is taken from the given path, or,
    if no file is there, from the alternative path; it is loaded and program
    (bank 0, preset 0) selected on the channels 0 to 15 in order; when neither
    file exists, or [sfload] answers -1, the synthesizer is deleted again and
    [fs] is left None. *)
Theorem init_builds (path : string) (sample_rate : Z) (gain : Q) (st : St) :
  quiet_host (host st) ->
  init path sample_rate gain st =
  (inr tt,
   logged st (build_calls (host st) path sample_rate gain)
     (built (host st) path)).
Proof.
  intros Hq. unfold init, built, build_calls, chosen.
  unfold bind, try_except, write, modify, gets, ret.
  repeat life_step Hq.
  destruct (file_exists (host st) path) eqn:E1; repeat life_step Hq.
  - destruct (Z.eqb_spec (sfload_result (host st) path) (-1)) as [E2 | E2];
      repeat life_step Hq; unfold logged; cbn; rewrite <- ?app_assoc, ?E2;
      reflexivity.
  - destruct (file_exists (host st) (alt_path (host st) path)) eqn:E3;
      repeat life_step Hq.
    + destruct (Z.eqb_spec (sfload_result (host st) (alt_path (host st) path))
                  (-1)) as [E2 | E2];
        repeat life_step Hq; unfold logged; cbn; rewrite <- ?app_assoc, ?E2;
        reflexivity.
    + unfold logged; cbn; rewrite <- ?app_assoc; reflexivity.
Qed.

Lemma init_builds_witness :
  init "soundbank/soundfont.sf2" 44100 (1 # 2) (unbuilt host_alt) =
  (inr tt,
   logged (unbuilt host_alt)
     (build_calls host_alt "soundbank/soundfont.sf2" 44100 (1 # 2))
     (built host_alt "soundbank/soundfont.sf2")).
Proof.
  apply (init_builds "soundbank/soundfont.sf2" 44100 (1 # 2) (unbuilt host_alt)).
  intros tr c. reflexivity.
Defined.

(** X7. When [fluidsynth.Synth] raises, the constructor returns normally after
    this one call, with [fs] None, [sfid] -1 and the path as given. *)
Theorem init_survives_synth_failure
  (path : string) (sample_rate : Z) (gain : Q) (st : St) :
  raises (host st) (calls st) (synth_new sample_rate gain) = true ->
  init path sample_rate gain st =
  (inr tt,
   logged st [synth_new sample_rate gain]
     {| fs := false; sfid := -1; soundfont_path := path |}).
Proof.
  intros H. unfold init, bind, try_except, write, modify, gets, ret, call.
  cbn [fst snd host calls self]. rewrite H. reflexivity.
Qed.

Lemma init_survives_synth_failure_witness :
  init "soundbank/soundfont.sf2" 44100 (1 # 2) (unbuilt host_no_synth) =
  (inr tt,
   logged (unbuilt host_no_synth) [synth_new 44100 (1 # 2)]
     {| fs := false; sfid := -1;
        soundfont_path := "soundbank/soundfont.sf2" |}).
Proof.
  apply (init_survives_synth_failure "soundbank/soundfont.sf2" 44100 (1 # 2)
           (unbuilt host_no_synth)).
  reflexivity.
Defined.

Lemma loop_self (f : Z -> HostCall) (l : list Z) (st : St) :
  self (snd (for_each l (fun i => call (f i)) st)) = self st.
Proof.
  revert st. induction l as [| i l IH]; intros st; [reflexivity |].
  cbn [for_each]. unfold bind, call at 1.
  destruct (raises (host st) (calls st) (f i)); [reflexivity |].
  rewrite IH. reflexivity.
Qed.

(** X8. Whatever the library calls do: when the constructor returns normally with
    [fs] set, a sound font is loaded ([sfid] is not -1) and [soundfont_path]
    names a file that exists. *)
Theorem constructed_player_has_sound_font
  (path : string) (sample_rate : Z) (gain : Q) (st : St) :
  fst (init path sample_rate gain st) = inr tt ->
  fs (self (snd (init path sample_rate gain st))) = true ->
  sfid (self (snd (init path sample_rate gain st))) <> (-1)%Z /\
  file_exists (host st)
    (soundfont_path (self (snd (init path sample_rate gain st)))) = true.
Proof.
  destruct (init path sample_rate gain st) as [r st'] eqn:E.
  cbn [fst snd]. intros -> F.
  unfold init, bind, try_except, write, modify, gets, ret in E.
  unfold call at 1 in E. cbn in E.
  destruct (raises (host st) (calls st) (synth_new sample_rate gain)); cbn in E;
    [injection E as <-; discriminate F |].
  destruct (file_exists (host st) path) eqn:E1; cbn in E.
  - unfold call at 1 in E. cbn in E.
    destruct (raises _ _ (synth_sfload path)); cbn in E; [discriminate E |].
    destruct (Z.eqb_spec (sfload_result (host st) path) (-1)) as [E2 | E2].
    + unfold call at 1 in E. cbn in E.
      destruct (raises _ _ synth_delete); cbn in E;
        [discriminate E | injection E as <-; discriminate F].
    + match type of E with _ ?s0 = _ =>
        pose proof (loop_self (fun i => synth_program_select i
                                 (sfload_result (host st) path) 0 0)
                      range16 s0) as L;
        assert (E' : for_each range16
                       (fun i => call (synth_program_select i
                                         (sfload_result (host st) path) 0 0))
                       s0 = (inr tt, st')) by exact E
      end.
      cbv beta in L. rewrite E' in L. cbn in L. rewrite L. cbn. auto.
  - destruct (file_exists (host st) (alt_path (host st) path)) eqn:E3;
      cbn in E.
    + unfold call at 1 in E. cbn in E.
      destruct (raises _ _ (synth_sfload _)); cbn in E; [discriminate E |].
      destruct (Z.eqb_spec (sfload_result (host st) (alt_path (host st) path))
                  (-1)) as [E2 | E2].
      * unfold call at 1 in E. cbn in E.
        destruct (raises _ _ synth_delete); cbn in E;
          [discriminate E | injection E as <-; discriminate F].
      * match type of E with _ ?s0 = _ =>
          pose proof (loop_self (fun i => synth_program_select i
                                   (sfload_result (host st)
                                      (alt_path (host st) path)) 0 0)
                        range16 s0) as L;
          assert (E' : for_each range16
                         (fun i => call (synth_program_select i
                                           (sfload_result (host st)
                                              (alt_path (host st) path)) 0 0))
                         s0 = (inr tt, st')) by exact E
        end.
        cbv beta in L. rewrite E' in L. cbn in L. rewrite L. cbn. auto.
    + unfold call at 1 in E. cbn in E.
      destruct (raises _ _ synth_delete); cbn in E;
        [discriminate E | injection E as <-; discriminate F].
Qed.

Lemma constructed_player_has_sound_font_witness :
  sfid (self (snd (init "soundbank/soundfont.sf2" 44100 (1 # 2)
                     (unbuilt host_alt)))) <> (-1)%Z /\
  file_exists host_alt
    (soundfont_path (self (snd (init "soundbank/soundfont.sf2" 44100 (1 # 2)
                                  (unbuilt host_alt))))) = true.
Proof.
  apply (constructed_player_has_sound_font "soundbank/soundfont.sf2" 44100
           (1 # 2) (unbuilt host_alt)); reflexivity.
Defined.

(** X10. [FluidSynthPlayer.cleanup] never raises; without a synthesizer it does
    nothing; with one it calls [delete] once and clears [fs], except that
    [fs] stays set when [delete] raised. *)
Theorem cleanup_effect (st : St) :
  cleanup st =
  (inr tt,
   if fs (self st)
   then logged st [synth_delete]
          (if raises (host st) (calls st) synth_delete then self st
           else set_fs false (self st))
   else st).
Proof.
  unfold cleanup, bind, try_except, write, modify, gets, ret, call.
  cbn [fst snd]. destruct (fs (self st)); [| reflexivity].
  destruct (raises (host st) (calls st) synth_delete); reflexivity.
Qed.

(** X11. After a [cleanup] whose [delete] did not raise [fs] is None, and a second
    [cleanup] (the one [__del__] makes) does nothing: the synthesizer is
    deleted at most once. *)
Theorem cleanup_twice (st : St) :
  raises (host st) (calls st) synth_delete = false ->
  fs (self (snd (cleanup st))) = false /\
  cleanup (snd (cleanup st)) = (inr tt, snd (cleanup st)).
Proof.
  intros H.
  assert (E : cleanup st =
              (inr tt,
               if fs (self st)
               then logged st [synth_delete] (set_fs false (self st))
               else st)).
  { unfold cleanup, bind, try_except, write, modify, gets, ret, call.
    cbn [fst snd]. destruct (fs (self st)); [| reflexivity].
    rewrite H. reflexivity. }
  rewrite E. cbn [snd].
  destruct (fs (self st)) eqn:F.
  - split; [reflexivity |]. unfold cleanup, bind, gets. reflexivity.
  - split; [exact F |]. unfold cleanup, bind, gets. cbn [fst snd].
    rewrite F. reflexivity.
Qed.

Lemma cleanup_twice_witness :
  fs (self (snd (cleanup built_alt))) = false /\
  cleanup (snd (cleanup built_alt)) = (inr tt, snd (cleanup built_alt)).
Proof.
  apply (cleanup_twice built_alt). reflexivity.
Defined.

(** X9. [set_gain] never raises and never changes the object; it calls the
    library's [set_gain] once when the synthesizer exists and not at all
    otherwise. *)
Theorem set_gain_effect (gain : Q) (st : St) :
  set_gain gain st =
  (inr tt,
   if fs (self st) then logged st [synth_set_gain gain] (self st) else st).
Proof.
  unfold set_gain, bind, try_except, gets, ret, call. cbn [fst snd].
  destruct (fs (self st)); [| reflexivity]. cbn [negb].
  destruct (raises (host st) (calls st) (synth_set_gain gain)); reflexivity.
Qed.

End Lifecycle.
